(** * sync_upstream.py: the selective synchronisation engine

    A shallow embedding of [UpstreamSync] (src/sync_upstream.py): the
    exclusion patterns and their matching, the change-set resolution, the
    merge-protection setup, the apply operations and the menu loop.

    Python [str] values are sequences of Unicode code points; they are
    modelled as [list N].  Interactive code runs in a state-and-exception
    monad over a [world] holding the operator's pending input lines, the
    content of [.gitattributes] and the trace of everything the program did
    (commands, prints, prompts, writes).  The version-control backend is an
    oracle of the environment: it answers each shell command from the
    history so far. *)

From Stdlib Require Import String Ascii.
From Stdlib Require DecimalNat.
From stdpp Require Import gmap list sorting.

(** ** Python strings *)

Abbreviation pystr := (list N).

(** An ASCII literal as a Python string. *)
Definition py (s : string) : pystr :=
  map N_of_ascii (list_ascii_of_string s).
Arguments py : simpl never.

Definition LF : N := 10.

(** The code points for which [str.isspace] holds; [str.strip()] without
    argument removes exactly these. *)
Definition is_space (c : N) : bool :=
  ((9 <=? c) && (c <=? 13) || (28 <=? c) && (c <=? 32)
   || (c =? 133) || (c =? 160) || (c =? 5760)
   || (8192 <=? c) && (c <=? 8202)
   || (c =? 8232) || (c =? 8233) || (c =? 8239) || (c =? 8287)
   || (c =? 12288))%N.

Fixpoint drop_while (f : N → bool) (s : pystr) : pystr :=
  match s with
  | [] => []
  | c :: s' => if f c then drop_while f s' else s
  end.

(** [s.lstrip(chars)], [s.rstrip(chars)] and [s.strip(chars)], the set of
    characters given as a predicate. *)
Definition lstrip_by (f : N → bool) (s : pystr) : pystr := drop_while f s.
Definition rstrip_by (f : N → bool) (s : pystr) : pystr :=
  rev (drop_while f (rev s)).
Definition strip_by (f : N → bool) (s : pystr) : pystr :=
  rstrip_by f (lstrip_by f s).

Definition mem_char (chars : pystr) (c : N) : bool :=
  existsb (N.eqb c) chars.

(** [s.strip()] *)
Definition strip (s : pystr) : pystr := strip_by is_space s.

(** [s.split(sep)] for a one-character separator: never an empty list. *)
Fixpoint split (sep : N) (s : pystr) : list pystr :=
  match s with
  | [] => [[]]
  | c :: s' =>
      if (c =? sep)%N then [] :: split sep s'
      else match split sep s' with
           | piece :: pieces => (c :: piece) :: pieces
           | [] => [[c]]
           end
  end.

(** [sep.join(parts)] *)
Fixpoint join (sep : pystr) (parts : list pystr) : pystr :=
  match parts with
  | [] => []
  | [p] => p
  | p :: ps => p ++ sep ++ join sep ps
  end.

(** [s.replace(old, new)] for a two-character [old = a b]: occurrences are
    replaced from the left and do not overlap. *)
Fixpoint replace2 (a b : N) (new : pystr) (s : pystr) : pystr :=
  match s with
  | [] => []
  | c :: s' =>
      match s' with
      | d :: s'' =>
          if ((c =? a) && (d =? b))%N then new ++ replace2 a b new s''
          else c :: replace2 a b new s'
      | [] => [c]
      end
  end.

(** [s.endswith(c)] for a one-character suffix. *)
Definition endswith (s : pystr) (c : N) : bool :=
  match last s with
  | Some d => (d =? c)%N
  | None => false
  end.

Definition pystr_eqb (s t : pystr) : bool := bool_decide (s = t).

Fixpoint startswith (s pre : pystr) : bool :=
  match pre, s with
  | [], _ => true
  | p :: pre', c :: s' => (c =? p)%N && startswith s' pre'
  | _ :: _, [] => false
  end.

(** [sub in s] *)
Fixpoint contains (sub s : pystr) : bool :=
  startswith s sub ||
  match s with
  | [] => false
  | _ :: s' => contains sub s'
  end.

(** [s.lower()].  The source only compares lowered input with 'y', 'q' and
    'a'; no code point outside A-Z lowers to one of these, so the code
    points outside A-Z are left as they are. *)
Definition lower_char (c : N) : N :=
  if ((65 <=? c) && (c <=? 90))%N then (c + 32)%N else c.
Definition lower (s : pystr) : pystr := map lower_char s.

(** [str(n)] for a non-negative integer. *)
Fixpoint digits (d : Decimal.uint) : pystr :=
  match d with
  | Decimal.Nil => []
  | Decimal.D0 d => 48%N :: digits d
  | Decimal.D1 d => 49%N :: digits d
  | Decimal.D2 d => 50%N :: digits d
  | Decimal.D3 d => 51%N :: digits d
  | Decimal.D4 d => 52%N :: digits d
  | Decimal.D5 d => 53%N :: digits d
  | Decimal.D6 d => 54%N :: digits d
  | Decimal.D7 d => 55%N :: digits d
  | Decimal.D8 d => 56%N :: digits d
  | Decimal.D9 d => 57%N :: digits d
  end.
Definition str (n : nat) : pystr := digits (Nat.to_uint n).

(** ** Regular expressions

    The fragment of Python's [re] syntax that [excluded_patterns] is written
    in: [^], [$], [.], an escaped punctuation character, and literals.
    Patterns using anything else are not compiled. *)

Inductive atom : Type :=
| Bol                (* ^ : only at the start of the string *)
| Eol                (* $ : at the end, or before a final line feed *)
| AnyChar            (* . : any code point but line feed *)
| Lit (c : N).

Definition is_alnum (c : N) : bool :=
  ((48 <=? c) && (c <=? 57) || (65 <=? c) && (c <=? 90)
   || (97 <=? c) && (c <=? 122))%N.

(** The operators outside the fragment: * + ? { } [ ] ( ) | *)
Definition is_operator (c : N) : bool :=
  mem_char (py "*+?{}[]()|") c.

Fixpoint compile (p : pystr) : option (list atom) :=
  match p with
  | [] => Some []
  | c :: p' =>
      if (c =? 94)%N then cons Bol <$> compile p'
      else if (c =? 36)%N then cons Eol <$> compile p'
      else if (c =? 46)%N then cons AnyChar <$> compile p'
      else if (c =? 92)%N then
        match p' with
        | d :: p'' =>
            if is_alnum d then None
            else cons (Lit d) <$> compile p''
        | [] => None
        end
      else if is_operator c then None
      else cons (Lit c) <$> compile p'
  end.

(** Matching from the current position; [at_start] says whether it is
    position 0.  There is no repetition, so there is no backtracking. *)
Fixpoint match_atoms (atoms : list atom) (at_start : bool) (s : pystr) : bool :=
  match atoms with
  | [] => true
  | Bol :: atoms' => at_start && match_atoms atoms' at_start s
  | Eol :: atoms' =>
      (pystr_eqb s [] || pystr_eqb s [LF]) && match_atoms atoms' at_start s
  | AnyChar :: atoms' =>
      match s with
      | c :: s' => negb (c =? LF)%N && match_atoms atoms' false s'
      | [] => false
      end
  | Lit l :: atoms' =>
      match s with
      | c :: s' => (c =? l)%N && match_atoms atoms' false s'
      | [] => false
      end
  end.

(** [re.match(pattern, s)] as a truth value. *)
Definition re_match (pattern s : pystr) : bool :=
  match compile pattern with
  | Some atoms => match_atoms atoms true s
  | None => false
  end.

(** ** The exclusion rules (UpstreamSync.__init__) *)

Definition excluded_patterns : list pystr :=
  [ py "^\.github/";
    py "^SRAFrontend/";
    py "^setup/";
    py "^README\.md$";
    py "^package\.py$";
    py "^\.gitignore$";
    py "^\.gitattributes$" ].

(** The inner loop of [get_changed_files]: is [file] matched by one of
    [patterns]?  The loop stops at the first match. *)
Fixpoint matches_any (patterns : list pystr) (file : pystr) : bool :=
  match patterns with
  | [] => false
  | pattern :: rest =>
      if re_match pattern file then true else matches_any rest file
  end.

Definition is_excluded (file : pystr) : bool :=
  matches_any excluded_patterns file.

(** [pattern.strip('^$').replace(r'\.', '.')] *)
Definition clean_pattern (pattern : pystr) : pystr :=
  replace2 92 46 [46%N] (strip_by (mem_char (py "^$")) pattern).

(** [[f.strip() for f in output.split('\n') if f.strip()]] *)
Definition all_files (output : pystr) : list pystr :=
  map strip (List.filter (λ f, negb (pystr_eqb (strip f) [])) (split LF output)).

(** The outer loop of [get_changed_files], appending to [filtered_files]. *)
Fixpoint filter_loop (files filtered_files : list pystr) : list pystr :=
  match files with
  | [] => filtered_files
  | file :: rest =>
      let exclude := matches_any excluded_patterns file in
      filter_loop rest
        (if exclude then filtered_files else filtered_files ++ [file])
  end.

(** [get_changed_files] after the backend call, on its captured output. *)
Definition changed_files_of (output : pystr) : list pystr :=
  if pystr_eqb output [] then [] else filter_loop (all_files output) [].

(** ** What the program does: events, world, environment *)

(** The status lines the program prints.  Runs of fixed presentation text
    (the menu, the remediation steps, the follow-up hints) are one message
    each; colours are left out. *)
Inductive message : Type :=
| MsgCmdFailed (cmd : pystr)          (* run_cmd: the command raised *)
| MsgCmdError
| MsgProtectionCreated                (* .gitattributes written *)
| MsgProtectionFailed                 (* warning: protection setup failed *)
| MsgFetching
| MsgFetchDone
| MsgLatestCommit (summary : pystr)
| MsgFetchFailed
| MsgNoFiles                          (* nothing to update *)
| MsgFoundCount (n : nat)
| MsgGroupedFiles (files : list pystr)
| MsgFileHeader (idx total : nat) (file : pystr)
| MsgDiff (diff_output : pystr)       (* the diff and its +/- statistics *)
| MsgNoTextChange
| MsgAboutToApply (files : list pystr)
| MsgCancelled
| MsgApplying
| MsgMergeFailed                      (* merge failed, conflicts possible *)
| MsgStaged
| MsgSelectHeader (n : nat)
| MsgNumbered (i : nat) (file : pystr)
| MsgInvalidNumber (num : pystr)
| MsgApplyingSelected
| MsgSelectedFile (file : pystr)
| MsgUpdatedCount (n : nat)
| MsgCheckingConflicts
| MsgConflicts (files : list pystr)
| MsgResolutionSteps
| MsgNoConflicts
| MsgAllFixed
| MsgStatusHeader
| MsgSummary (files : list pystr)
| MsgTitle
| MsgNoUpstream
| MsgRemoteAdded
| MsgManualRemote
| MsgCannotContinue
| MsgUpToDate                         (* already up to date, nothing to sync *)
| MsgExcludedList (paths : list pystr)
| MsgMenu
| MsgBye
| MsgInvalidChoice
| MsgNextSteps
| MsgNotRepo
| MsgNoGit
| MsgInterrupted                      (* the operator interrupted *)
| MsgCrash.

(** The places where the program waits for a line from the operator. *)
Inductive prompt : Type :=
| PromptPreview | PromptNextFile | PromptConfirmAll | PromptSelect
| PromptOpenEditor | PromptAddRemote | PromptMenu | PromptContinue.

Inductive event : Type :=
| EvCmd (cmd : pystr) (capture : bool)   (* run_cmd(cmd, capture=...) *)
| EvPrint (m : message)
| EvAsk (p : prompt)                     (* input(...) *)
| EvWrite (content : pystr)              (* .gitattributes write_text *)
| EvEditor (file : pystr).               (* subprocess.run(["code", file]) *)

#[global] Instance message_eq_dec : EqDecision message.
Proof. solve_decision. Defined.
#[global] Instance prompt_eq_dec : EqDecision prompt.
Proof. solve_decision. Defined.
#[global] Instance event_eq_dec : EqDecision event.
Proof. solve_decision. Defined.

(** The trace holds the newest event first. *)
Record world : Type := World {
  inputs : list pystr;          (* the lines the operator will still type *)
  gitattributes : option pystr; (* content of .gitattributes, if it exists *)
  trace : list event
}.

(** What the program cannot decide by itself.  [backend] answers a shell
    command from the history so far: [None] when starting it raises,
    otherwise the decoded standard output and the exit code. *)
Record env : Type := Env {
  backend : list event → pystr → option (pystr * Z);
  write_ok : bool;              (* can .gitattributes be written? *)
  path_exists : pystr → bool;   (* Path(file).exists() *)
  editor_ok : bool;             (* can the editor be started? *)
  in_repo : bool;               (* Path(".git").exists() *)
  git_ok : bool                 (* does `git --version` succeed? *)
}.

(** The exceptions of the program: the end of the input, a failing system
    call, and the operator's interrupt.  The first two are [Exception]s;
    [KeyboardInterrupt] is not. *)
Inductive exn : Type := EOFError | OSError | KeyboardInterrupt.

Inductive outcome (A : Type) : Type :=
| Val (a : A)
| Raise (x : exn)
| Diverge.
Arguments Val {A} a.
Arguments Raise {A} x.
Arguments Diverge {A}.

Definition M (A : Type) : Type := world → outcome A * world.

Definition ret {A} (a : A) : M A := λ w, (Val a, w).

Definition bind {A B} (m : M A) (k : A → M B) : M B := λ w,
  match m w with
  | (Val a, w') => k a w'
  | (Raise x, w') => (Raise x, w')
  | (Diverge, w') => (Diverge, w')
  end.

Declare Scope prog_scope.
Delimit Scope prog_scope with prog.
Notation "x <- m ;; k" := (bind m (λ x, k))
  (at level 100, m at next level, right associativity) : prog_scope.
Notation "m ;; k" := (bind m (λ _, k))
  (at level 100, right associativity) : prog_scope.
Local Open Scope prog_scope.

(** [try: m except Exception: h] *)
Definition try_except {A} (m : M A) (h : exn → M A) : M A := λ w,
  match m w with
  | (Raise x, w') => h x w'
  | r => r
  end.

Definition emit (ev : event) : M unit := λ w,
  (Val tt, World (inputs w) (gitattributes w) (ev :: trace w)).

Definition print (m : message) : M unit := emit (EvPrint m).

(** [input(prompt)]: the next line, or [EOFError] when there is none. *)
Definition input (p : prompt) : M pystr := λ w,
  match inputs w with
  | line :: rest =>
      (Val line, World rest (gitattributes w) (EvAsk p :: trace w))
  | [] => (Raise EOFError, World [] (gitattributes w) (EvAsk p :: trace w))
  end.

Definition raise {A} (x : exn) : M A := λ w, (Raise x, w).
Definition diverge {A} : M A := λ w, (Diverge, w).

(** ** The program *)

(** The first line of the generated .gitattributes: '#', a space, six CJK
    code points, a line feed. *)
Definition attributes_header : pystr :=
  [35; 32; 21512; 24182; 20445; 25252; 37197; 32622; 10]%N.

(** One line of .gitattributes per pattern (the body of the loop in
    [_setup_merge_protection]). *)
Definition directive (pattern : pystr) : pystr :=
  let clean := clean_pattern pattern in
  if endswith clean 47 then clean ++ py "* merge=ours" ++ [LF]
  else clean ++ py " merge=ours" ++ [LF].

Definition protection_content (patterns : list pystr) : pystr :=
  fold_left (λ content pattern, content ++ directive pattern)
            patterns attributes_header.

(** The path a pattern is restored from after a merge (the body of the loop
    at the end of [apply_all_changes]). *)
Definition restore_path (pattern : pystr) : pystr :=
  let clean := clean_pattern pattern in
  if endswith clean 47 then rstrip_by (N.eqb 47) clean else clean.

Definition merge_cmd : pystr := py "git merge --no-commit --no-ff upstream/main".
Definition diff_names_cmd : pystr := py "git diff --name-only HEAD..upstream/main".
Definition unmerged_cmd : pystr := py "git diff --name-only --diff-filter=U".
Definition fetch_cmd : pystr := py "git fetch upstream".
Definition status_cmd : pystr := py "git status".
Definition config_cmd : pystr := py "git config merge.ours.driver true".
Definition remote_add_cmd : pystr :=
  py "git remote add upstream https://github.com/Shasnow/StarRailAssistant.git".
Definition checkout_head (path : pystr) : pystr :=
  py "git checkout HEAD -- " ++ path.
Definition checkout_upstream (file : pystr) : pystr :=
  py "git checkout upstream/main -- " ++ file.
Definition diff_file_cmd (file : pystr) : pystr :=
  py "git diff HEAD..upstream/main -- " ++ file.

Inductive flow : Type := Continue | Break.

Section Program.
Variable e : env.

(** [run_cmd]: the stripped output when captured, and the return code;
    [("", 1)] after reporting when the command could not be run. *)
Definition run_cmd (cmd : pystr) (capture : bool) : M (pystr * Z) := λ w,
  match backend e (trace w) cmd with
  | Some (out, code) =>
      (_ <- emit (EvCmd cmd capture) ;;
       ret (if capture then strip out else [], code)) w
  | None =>
      (_ <- emit (EvCmd cmd capture) ;;
       _ <- print (MsgCmdFailed cmd) ;;
       _ <- print MsgCmdError ;;
       ret ([], 1%Z)) w
  end.

(** [gitattributes_path.write_text(content)] *)
Definition write_text (content : pystr) : M unit := λ w,
  if write_ok e then
    (Val tt, World (inputs w) (Some content) (EvWrite content :: trace w))
  else (Raise OSError, w).

Definition attributes_exist : M bool := λ w,
  (Val (bool_decide (is_Some (gitattributes w))), w).

Definition _setup_merge_protection : M unit :=
  try_except
    (present <- attributes_exist ;;
     _ <- (if negb present then
             _ <- write_text (protection_content excluded_patterns) ;;
             print MsgProtectionCreated
           else ret tt) ;;
     _ <- run_cmd config_cmd true ;;
     ret tt)
    (λ _, print MsgProtectionFailed).

(** [UpstreamSync.__init__] *)
Definition init : M unit := _setup_merge_protection.

Definition fetch_upstream : M bool :=
  _ <- print MsgFetching ;;
  r <- run_cmd fetch_cmd true ;;
  if (r.2 =? 0)%Z then
    l <- run_cmd (py "git log -1 --oneline upstream/main") true ;;
    _ <- (if negb (pystr_eqb l.1 []) then
            _ <- print MsgFetchDone ;;
            print (MsgLatestCommit (take 60 l.1))
          else print MsgFetchDone) ;;
    ret true
  else
    _ <- print MsgFetchFailed ;;
    ret false.

Definition get_changed_files : M (list pystr) :=
  r <- run_cmd diff_names_cmd true ;;
  ret (changed_files_of r.1).

Definition show_status : M unit :=
  _ <- print MsgStatusHeader ;;
  _ <- run_cmd status_cmd false ;;
  ret tt.

(** The per-file loop of [preview_changes]; [idx] counts from 1. *)
Fixpoint preview_loop (idx total : nat) (files : list pystr) : M unit :=
  match files with
  | [] => ret tt
  | file :: rest =>
      _ <- print (MsgFileHeader idx total file) ;;
      d <- run_cmd (diff_file_cmd file) true ;;
      _ <- (if negb (pystr_eqb d.1 []) then print (MsgDiff d.1)
            else print MsgNoTextChange) ;;
      if idx <? total then
        cont <- input PromptNextFile ;;
        if pystr_eqb (lower cont) (py "q") then ret tt
        else preview_loop (S idx) total rest
      else preview_loop (S idx) total rest
  end.

Definition preview_changes (files : list pystr) : M unit :=
  match files with
  | [] => print MsgNoFiles
  | _ =>
      _ <- print (MsgFoundCount (length files)) ;;
      _ <- print (MsgGroupedFiles files) ;;
      preview <- input PromptPreview ;;
      if negb (pystr_eqb (lower preview) (py "y")) then ret tt
      else preview_loop 1 (length files) files
  end.

(** The loop restoring the excluded paths from HEAD. *)
Fixpoint restore_excluded (patterns : list pystr) : M unit :=
  match patterns with
  | [] => ret tt
  | pattern :: rest =>
      _ <- run_cmd (checkout_head (restore_path pattern)) false ;;
      restore_excluded rest
  end.

Definition apply_all_changes (files : list pystr) : M unit :=
  match files with
  | [] => print MsgNoFiles
  | _ =>
      _ <- print (MsgAboutToApply files) ;;
      confirm <- input PromptConfirmAll ;;
      if negb (pystr_eqb (lower confirm) (py "y")) then print MsgCancelled
      else
        _ <- print MsgApplying ;;
        r <- run_cmd merge_cmd false ;;
        if negb (r.2 =? 0)%Z then print MsgMergeFailed
        else
          _ <- restore_excluded excluded_patterns ;;
          _ <- print MsgStaged ;;
          show_status
  end.

(** The listing loop of [interactive_select], filling [file_map]. *)
Fixpoint list_files (i : nat) (files : list pystr)
    (file_map : gmap pystr pystr) : M (gmap pystr pystr) :=
  match files with
  | [] => ret file_map
  | file :: rest =>
      _ <- print (MsgNumbered i file) ;;
      list_files (S i) rest (<[str i := file]> file_map)
  end.

(** The loop over the comma-separated numbers: the files selected so far,
    and the first invalid number if there is one. *)
Fixpoint parse_numbers (file_map : gmap pystr pystr) (nums : list pystr)
    (selected : list pystr) : list pystr * option pystr :=
  match nums with
  | [] => (selected, None)
  | num :: rest =>
      let num := strip num in
      match file_map !! num with
      | Some file => parse_numbers file_map rest (selected ++ [file])
      | None => (selected, Some num)
      end
  end.

(** The selection loop; [None] when the operator quits with q. *)
Fixpoint select_loop (fuel : nat) (files : list pystr)
    (file_map : gmap pystr pystr) : M (option (list pystr)) :=
  match fuel with
  | 0 => diverge
  | S fuel' =>
      line <- input PromptSelect ;;
      let choice := strip line in
      if pystr_eqb (lower choice) (py "q") then ret None
      else if pystr_eqb (lower choice) (py "a") then ret (Some files)
      else
        match parse_numbers file_map (split 44 choice) [] with
        | (selected, Some num) =>
            _ <- print (MsgInvalidNumber num) ;;
            select_loop fuel' files file_map
        | (selected, None) =>
            match selected with
            | _ :: _ => ret (Some selected)
            | [] => select_loop fuel' files file_map
            end
        end
  end.

(** The loop checking out the selected files from upstream. *)
Fixpoint checkout_selected (selected : list pystr) : M unit :=
  match selected with
  | [] => ret tt
  | file :: rest =>
      _ <- print (MsgSelectedFile file) ;;
      _ <- run_cmd (checkout_upstream file) false ;;
      checkout_selected rest
  end.

Definition interactive_select (files : list pystr) : M unit :=
  match files with
  | [] => print MsgNoFiles
  | _ =>
      _ <- print (MsgSelectHeader (length files)) ;;
      file_map <- list_files 1 files ∅ ;;
      fuel <- (λ w, (Val (S (length (inputs w))), w)) ;;
      sel <- select_loop fuel files file_map ;;
      match sel with
      | None => ret tt
      | Some selected =>
          _ <- print MsgApplyingSelected ;;
          _ <- checkout_selected selected ;;
          _ <- print (MsgUpdatedCount (length selected)) ;;
          show_status
      end
  end.

(** The editor loop of [check_conflicts]. *)
Fixpoint open_in_editor (conflict_files : list pystr) : M unit :=
  match conflict_files with
  | [] => ret tt
  | file :: rest =>
      _ <- (if path_exists e file then
              if editor_ok e then emit (EvEditor file) else raise OSError
            else ret tt) ;;
      open_in_editor rest
  end.

Definition check_conflicts : M unit :=
  _ <- print MsgCheckingConflicts ;;
  r <- run_cmd unmerged_cmd true ;;
  if negb (pystr_eqb r.1 []) then
    let conflict_files := all_files r.1 in
    _ <- print (MsgConflicts conflict_files) ;;
    _ <- print MsgResolutionSteps ;;
    open_editor <- input PromptOpenEditor ;;
    if pystr_eqb (lower open_editor) (py "y")
    then open_in_editor conflict_files
    else ret tt
  else
    _ <- print MsgNoConflicts ;;
    s <- run_cmd status_cmd true ;;
    if contains (py "All conflicts fixed") s.1 then print MsgAllFixed
    else ret tt.

Definition show_summary (files : list pystr) : M unit :=
  match files with
  | [] => ret tt
  | _ => print (MsgSummary files)
  end.

(** The end of an iteration of [main_loop] after an operation: the
    follow-up hints after choices 2 and 3, then the question whether to
    go back to the menu. *)
Definition after_operation (choice : pystr) : M flow :=
  _ <- (if pystr_eqb choice (py "2") || pystr_eqb choice (py "3")
        then print MsgNextSteps else ret tt) ;;
  cont <- input PromptContinue ;;
  if pystr_eqb (strip cont) (py "0") then
    _ <- print MsgBye ;; ret Break
  else ret Continue.

(** The remote check at the top of the loop: is there an upstream remote
    once it is done?  ([False] leads to [continue].) *)
Definition ensure_remote : M bool :=
  remotes <- run_cmd (py "git remote -v") true ;;
  if negb (contains (py "upstream") remotes.1) then
    _ <- print MsgNoUpstream ;;
    answer <- input PromptAddRemote ;;
    let setup := lower answer in
    if pystr_eqb setup (py "y") || pystr_eqb setup [] then
      _ <- run_cmd remote_add_cmd true ;;
      _ <- print MsgRemoteAdded ;;
      ret true
    else
      _ <- print MsgManualRemote ;;
      ret false
  else ret true.

(** The [if choice == ...] chain and what follows it. *)
Definition dispatch (files : list pystr) (choice : pystr) : M flow :=
  if pystr_eqb choice (py "0") then
    _ <- print MsgBye ;; ret Break
  else if pystr_eqb choice (py "1") then
    _ <- preview_changes files ;; after_operation choice
  else if pystr_eqb choice (py "2") then
    _ <- apply_all_changes files ;; after_operation choice
  else if pystr_eqb choice (py "3") then
    _ <- interactive_select files ;; after_operation choice
  else if pystr_eqb choice (py "4") then
    _ <- check_conflicts ;; after_operation choice
  else if pystr_eqb choice (py "5") then
    _ <- show_status ;; after_operation choice
  else if pystr_eqb choice (py "6") then ret Continue
  else
    _ <- print MsgInvalidChoice ;; after_operation choice.

(** The menu: shown, answered, dispatched. *)
Definition menu_step (files : list pystr) : M flow :=
  _ <- print MsgMenu ;;
  line <- input PromptMenu ;;
  dispatch files (strip line).

(** One iteration of the [while True] of [main_loop]. *)
Definition main_iteration : M flow :=
  _ <- print MsgTitle ;;
  configured <- ensure_remote ;;
  if negb configured then ret Continue
  else
    fetched <- fetch_upstream ;;
    if negb fetched then
      _ <- print MsgCannotContinue ;; ret Break
    else
      files <- get_changed_files ;;
      _ <- (match files with
            | [] =>
                _ <- print MsgUpToDate ;;
                print (MsgExcludedList (map clean_pattern excluded_patterns))
            | _ => show_summary files
            end) ;;
      menu_step files.

Fixpoint main_loop_fuel (fuel : nat) : M unit :=
  match fuel with
  | 0 => diverge
  | S fuel' =>
      next <- main_iteration ;;
      match next with
      | Continue => main_loop_fuel fuel'
      | Break => ret tt
      end
  end.

(** [main_loop]: every iteration that goes round again has read at least
    one line, so one more round than there are pending lines is always
    enough (see [main_loop_returns]). *)
Definition main_loop : M unit := λ w,
  main_loop_fuel (S (length (inputs w))) w.

(** [main()], returning the process exit code.  After an interrupt the
    warning is printed and the exit code is 0; after any other exception
    the error is printed and the exit code is 1.  The operations above
    raise [EOFError] and [OSError] only: when the operator interrupts is
    not part of the environment. *)
Definition main : M Z :=
  if negb (in_repo e) then
    _ <- print MsgNotRepo ;; ret 1%Z
  else if negb (git_ok e) then
    _ <- print MsgNoGit ;; ret 1%Z
  else
    try_except
      (_ <- init ;; _ <- main_loop ;; ret 0%Z)
      (λ x, match x with
            | KeyboardInterrupt => _ <- print MsgInterrupted ;; ret 0%Z
            | _ => _ <- print MsgCrash ;; ret 1%Z
            end).

End Program.

(** The commands issued, oldest first. *)
Definition commands_of (tr : list event) : list pystr :=
  rev (omap (λ ev, match ev with EvCmd cmd _ => Some cmd | _ => None end) tr).

(** ** Scenarios and the notions the statements use

    A scripted backend: the remote is configured, the diff-paths query and
    the merge answer as given, every other command succeeds silently. *)

Definition scripted_backend (diff_out : pystr) (diff_code merge_code : Z)
    (_ : list event) (cmd : pystr) : option (pystr * Z) :=
  if pystr_eqb cmd (py "git remote -v")
  then Some (py "upstream  https://example.invalid/up.git (fetch)", 0%Z)
  else if pystr_eqb cmd diff_names_cmd then Some (diff_out, diff_code)
  else if pystr_eqb cmd merge_cmd then Some ([], merge_code)
  else Some ([], 0%Z).

Definition scripted_env (diff_out : pystr) (diff_code merge_code : Z)
    (writable : bool) : env :=
  Env (scripted_backend diff_out diff_code merge_code)
      writable (λ _, true) true true true.

(** [run_cmd] hands its command line to the shell ([shell=True]).  A line
    without quoting and without operator characters is split at its blanks
    into the words of the command. *)
Definition shell_words (cmd : pystr) : list pystr :=
  List.filter (λ word, negb (pystr_eqb word [])) (split 32 cmd).

(** The paths that the words of a git command name: the words after the
    double dash. *)
Fixpoint pathspecs (words : list pystr) : list pystr :=
  match words with
  | [] => []
  | word :: rest =>
      if pystr_eqb word (py "--") then rest else pathspecs rest
  end.

(** A backend in which every command succeeds silently, but for the
    checkouts from HEAD, which all end with exit code [code]: 1 is what git
    answers for a path that HEAD does not have. *)
Definition restore_backend (code : Z) (_ : list event) (cmd : pystr)
    : option (pystr * Z) :=
  if startswith cmd (py "git checkout HEAD -- ") then Some ([], code)
  else Some ([], 0%Z).

Definition restore_env (code : Z) : env :=
  Env (restore_backend code) true (λ _, true) true true true.

(** The backend's listing of a list of paths: one path per line. *)
Definition listing (paths : list pystr) : pystr :=
  concat (map (λ p, p ++ [LF]) paths).

Definition five_files : list pystr :=
  [py "src/a.txt"; py "b.py"; py "c/d.e"; py "f"; py "g.txt"].

(** The directory prefixes and the file names the patterns stand for, told
    apart as the source does: by the final slash of the cleaned pattern. *)
Definition protected_dirs : list pystr :=
  List.filter (λ c, endswith c 47) (map clean_pattern excluded_patterns).
Definition protected_names : list pystr :=
  List.filter (λ c, negb (endswith c 47)) (map clean_pattern excluded_patterns).

(** A path as the backend lists it: not empty, on one line, no white space
    at either end. *)
Definition clean_path (p : pystr) : Prop :=
  p ≠ [] ∧ (LF ∉ p) ∧ strip p = p.

(** Counting the events of one kind in a stretch of the trace. *)
Definition count (f : event → bool) (evs : list event) : nat :=
  length (List.filter f evs).

Definition is_menu (ev : event) : bool :=
  match ev with EvAsk PromptMenu => true | _ => false end.
Definition is_cmd (cmd : pystr) (ev : event) : bool :=
  match ev with EvCmd c _ => pystr_eqb c cmd | _ => false end.
Definition is_any_cmd (ev : event) : bool :=
  match ev with EvCmd _ _ => true | _ => false end.
Definition is_write (ev : event) : bool :=
  match ev with EvWrite _ => true | _ => false end.

(** [w'] is [w] after the events [evs] (newest first); input lines are only
    ever consumed. *)
Definition grows (w w' : world) (evs : list event) : Prop :=
  trace w' = evs ++ trace w ∧ length (inputs w') ≤ length (inputs w).

(** [m], run in [w], returns (a value or an exception), and none of the
    events it adds is of kind [f]. *)
Definition quiet_at {A} (f : event → bool) (m : M A) (w : world) : Prop :=
  ∃ evs, grows w (m w).2 evs
         ∧ Forall (λ ev, f ev = false) evs
         ∧ (m w).1 ≠ Diverge.
Definition quiet {A} (f : event → bool) (m : M A) : Prop :=
  ∀ w, quiet_at f m w.

(** [m], run in [w], adds a stretch of events to the trace, and [Q] holds of
    its outcome, the world it leaves and that stretch. *)
Definition seg_at {A} (m : M A) (w : world)
    (Q : outcome A → world → list event → Prop) : Prop :=
  ∃ evs, grows w (m w).2 evs ∧ Q (m w).1 (m w).2 evs.

(** What an iteration of the main loop guarantees, [n0] being the number of
    pending input lines when it starts: the menu is not shown more often
    than upstream is fetched and the change set derived, and going round
    again costs at least one input line. *)
Definition iteration_post (n0 : nat) (r : outcome flow) (w' : world)
    (evs : list event) : Prop :=
  count is_menu evs ≤ count (is_cmd fetch_cmd) evs
  ∧ count is_menu evs ≤ count (is_cmd diff_names_cmd) evs
  ∧ (r = Val Continue → length (inputs w') < n0)
  ∧ r ≠ Diverge.

(** The world in which [apply_all_changes] runs the merge, once the
    operator has confirmed; [rest] are the input lines left. *)
Definition at_merge (files : list pystr) (w : world) (rest : list pystr)
    : world :=
  World rest (gitattributes w)
        (EvPrint MsgApplying :: EvAsk PromptConfirmAll
         :: EvPrint (MsgAboutToApply files) :: trace w).

(** [m], run in [w], returns [a], leaves the input lines [ins] and runs
    exactly the commands [cmds], in this order. *)
Definition runs {A} (m : M A) (w : world) (a : A) (ins : list pystr)
    (cmds : list pystr) : Prop :=
  ∃ w', m w = (Val a, w')
        ∧ inputs w' = ins
        ∧ commands_of (trace w') = commands_of (trace w) ++ cmds.

(** The same for an [m] that reads no input. *)
Definition issues {A} (m : M A) (w : world) (a : A) (cmds : list pystr)
    : Prop :=
  runs m w a (inputs w) cmds.

(** The dictionary [file_map] after the listing loop. *)
Fixpoint file_map_of (i : nat) (files : list pystr)
    (file_map : gmap pystr pystr) : gmap pystr pystr :=
  match files with
  | [] => file_map
  | file :: rest => file_map_of (S i) rest (<[str i := file]> file_map)
  end.

(** The characters of a selection line made of numbers and commas. *)
Definition is_digit (c : N) : Prop := (48 ≤ c ≤ 57)%N.
Definition is_numchar (c : N) : Prop := is_digit c ∨ c = 44%N.

(** [num], stripped, is the decimal numeral of a 1-based position in
    [files]. *)
Definition valid_number (files : list pystr) (num : pystr) : Prop :=
  ∃ j, j < length files ∧ strip num = str (S j).

(** Only prints, prompts and editor launches for existing files, no write:
    the footprint of a read-only operation besides its commands. *)
Definition harmless (e : env) (ev : event) : Prop :=
  match ev with
  | EvEditor file => path_exists e file = true
  | EvWrite _ => False
  | _ => True
  end.

(** [m], run in [w], adds harmless events only; [C] holds of its outcome,
    the world it leaves and the commands it has run, in order. *)
Definition emits {A} (e : env) (m : M A) (w : world)
    (C : outcome A → world → list pystr → Prop) : Prop :=
  ∃ evs,
    trace (m w).2 = evs ++ trace w
    ∧ Forall (harmless e) evs
    ∧ C (m w).1 (m w).2 (commands_of evs).

(** What [run_cmd] hands back for [cmd] in world [w]. *)
Definition answer (e : env) (w : world) (cmd : pystr) : pystr * Z :=
  match backend e (trace w) cmd with
  | Some (out, code) => (strip out, code)
  | None => ([], 1%Z)
  end.

(** ** Presentation: colours, statistics, groups and counts

    The computations behind the messages [MsgDiff], [MsgGroupedFiles] and
    [MsgSummary]. *)

(** The attributes of class [Colors] that [colorize_diff_line] reads: the
    constants of colorama when it can be imported, the escape sequences of
    the fallback class when it cannot. *)
Record Colors : Type := {
  DIFF_ADD : pystr;
  DIFF_DEL : pystr;
  DIFF_FILE : pystr;
  DIFF_HUNK : pystr;
  DIFF_META : pystr;
  RESET : pystr
}.

Definition ESC : N := 27.

(** The fallback class. *)
Definition fallback_colors : Colors := {|
  DIFF_ADD := ESC :: py "[32m";
  DIFF_DEL := ESC :: py "[31m";
  DIFF_FILE := ESC :: py "[36m";
  DIFF_HUNK := ESC :: py "[33m";
  DIFF_META := ESC :: py "[34m";
  RESET := ESC :: py "[0m"
|}.

Definition colorize_diff_line (c : Colors) (line : pystr) : pystr :=
  if startswith line (py "diff --git") then DIFF_FILE c ++ line ++ RESET c
  else if startswith line (py "index") then DIFF_META c ++ line ++ RESET c
  else if startswith line (py "---") then DIFF_DEL c ++ line ++ RESET c
  else if startswith line (py "+++") then DIFF_ADD c ++ line ++ RESET c
  else if startswith line (py "@@") then DIFF_HUNK c ++ line ++ RESET c
  else if startswith line (py "+") then DIFF_ADD c ++ line ++ RESET c
  else if startswith line (py "-") then DIFF_DEL c ++ line ++ RESET c
  else line.

(** What [preview_changes] prints of a non-empty [diff_output], one entry
    per call of [print]: the output as it is when it carries an escape
    sequence, else its lines coloured one by one. *)
Definition shown_diff (c : Colors) (diff_output : pystr) : list pystr :=
  if contains (ESC :: py "[") diff_output then [diff_output]
  else map (colorize_diff_line c) (split LF diff_output).

(** The two statistics of [preview_changes]. *)
Definition added (diff_output : pystr) : nat :=
  length (List.filter
            (λ line, startswith line (py "+")
                     && negb (startswith line (py "+++")))
            (split LF diff_output)).

Definition removed (diff_output : pystr) : nat :=
  length (List.filter
            (λ line, startswith line (py "-")
                     && negb (startswith line (py "---")))
            (split LF diff_output)).

(** [s <= t] on strings: code point by code point, a prefix first. *)
Fixpoint pystr_le (s t : pystr) : bool :=
  match s, t with
  | [], _ => true
  | _ :: _, [] => false
  | c :: s', d :: t' => (c <? d)%N || (c =? d)%N && pystr_le s' t'
  end.







(** The key counting the files without extension. *)
Definition no_extension : pystr := [26080; 25193; 23637; 21517]%N.

(** [sorted] on the items of a dictionary: tuples compare by the key and,
    the keys being equal, by the count. *)
Definition item_le (a b : pystr * nat) : bool :=
  if pystr_eqb a.1 b.1 then a.2 <=? b.2 else pystr_le a.1 b.1.

Section Summary.

(** [Path(file).suffix], a function of the standard library. *)
Variable suffix : pystr → pystr.

(** The counting loop of [show_summary]. *)
Definition count_extension (extensions : gmap pystr nat) (file : pystr)
    : gmap pystr nat :=
  let ext := suffix file in
  if negb (pystr_eqb ext []) then
    <[ext := default 0 (extensions !! ext) + 1]> extensions
  else
    <[no_extension := default 0 (extensions !! no_extension) + 1]> extensions.

Definition extensions_of (files : list pystr) : gmap pystr nat :=
  foldl count_extension ∅ files.

(** The rows of the distribution that [show_summary] prints. *)
Definition summary_rows (files : list pystr) : list (pystr * nat) :=
  merge_sort (λ a b, item_le a b) (map_to_list (extensions_of files)).

(** The key under which [file] is counted. *)
Definition extension_key (file : pystr) : pystr :=
  if pystr_eqb (suffix file) [] then no_extension else suffix file.

End Summary.

(** * Properties *)

(** ** Strings *)

Lemma pystr_eqb_eq s t : s = t → pystr_eqb s t = true.
Proof. intros ->. unfold pystr_eqb. by apply bool_decide_eq_true. Qed.

Lemma pystr_eqb_ne s t : s ≠ t → pystr_eqb s t = false.
Proof. intros H. unfold pystr_eqb. by apply bool_decide_eq_false. Qed.

Lemma drop_while_suffix f s : drop_while f s `suffix_of` s.
Proof.
  induction s as [|c s IH]; simpl; [done|].
  destruct (f c); [by apply suffix_cons_r | done].
Qed.

Lemma elem_of_drop_while f s c : c ∈ drop_while f s → c ∈ s.
Proof.
  intros H. destruct (drop_while_suffix f s) as [k ->].
  apply elem_of_app. by right.
Qed.

Lemma elem_of_strip_by f s c : c ∈ strip_by f s → c ∈ s.
Proof.
  unfold strip_by, rstrip_by, lstrip_by. intros H.
  rewrite list_elem_of_In, <- in_rev, <- list_elem_of_In in H.
  apply elem_of_drop_while in H.
  rewrite list_elem_of_In, <- in_rev, <- list_elem_of_In in H.
  by apply elem_of_drop_while in H.
Qed.

Lemma split_cons_inv sep s : ∃ piece pieces, split sep s = piece :: pieces.
Proof.
  destruct s as [|c s]; simpl; [by eauto|].
  destruct (c =? sep)%N; [by eauto|].
  destruct (split sep s); eauto.
Qed.

Lemma split_pieces_no_sep sep s piece :
  piece ∈ split sep s → sep ∉ piece.
Proof.
  revert piece. induction s as [|c s IH]; simpl; intros piece H.
  - apply list_elem_of_singleton in H as ->. apply not_elem_of_nil.
  - destruct (N.eqb_spec c sep) as [->|Hne].
    + apply elem_of_cons in H as [->|H]; [apply not_elem_of_nil | by apply IH].
    + destruct (split sep s) as [|q qs] eqn:E.
      * apply list_elem_of_singleton in H as ->.
        intros [?|H]%elem_of_cons; [congruence|]. by apply not_elem_of_nil in H.
      * apply elem_of_cons in H as [->|H].
        -- intros [?|H]%elem_of_cons; [congruence|].
           revert H. apply IH. by left.
        -- apply IH. by right.
Qed.

(** Every path the filtering loop sees is a single line. *)
Lemma all_files_no_LF output p : p ∈ all_files output → LF ∉ p.
Proof.
  unfold all_files. intros H.
  apply list_elem_of_fmap in H as (q & -> & H).
  apply list_elem_of_In, filter_In in H as [H _]. apply list_elem_of_In in H.
  intros Hin. apply elem_of_strip_by in Hin.
  by apply split_pieces_no_sep in H.
Qed.

(** ** Matching *)

Lemma match_atoms_lits l b s :
  match_atoms (map Lit l) b s = true ↔ l `prefix_of` s.
Proof.
  revert b s. induction l as [|a l IH]; intros b s; simpl.
  - split; [intros _; apply prefix_nil | done].
  - destruct s as [|c s].
    + split; [done | intros H; by apply prefix_nil_not in H].
    + rewrite andb_true_iff, N.eqb_eq, IH. split.
      * intros [-> H]. by apply prefix_cons.
      * intros H. split; [by apply prefix_cons_inv_1 in H
                         | by apply prefix_cons_inv_2 in H].
Qed.

Lemma match_atoms_lits_eol l b s :
  match_atoms (map Lit l ++ [Eol]) b s = true ↔ s = l ∨ s = l ++ [LF].
Proof.
  revert b s. induction l as [|a l IH]; intros b s; simpl.
  - unfold pystr_eqb. rewrite andb_true_r, orb_true_iff, !bool_decide_eq_true.
    done.
  - destruct s as [|c s].
    + split; [done | by intros [|]].
    + rewrite andb_true_iff, N.eqb_eq, IH. split.
      * intros [-> [->| ->]]; auto.
      * intros [H|H]; injection H as -> ->; auto.
Qed.

Lemma re_match_prefix pattern l s :
  compile pattern = Some (Bol :: map Lit l) →
  re_match pattern s = true ↔ l `prefix_of` s.
Proof.
  intros E. unfold re_match. rewrite E. simpl. apply match_atoms_lits.
Qed.

Lemma re_match_exact pattern l s :
  compile pattern = Some (Bol :: map Lit l ++ [Eol]) →
  re_match pattern s = true ↔ s = l ∨ s = l ++ [LF].
Proof.
  intros E. unfold re_match. rewrite E. simpl. apply match_atoms_lits_eol.
Qed.

Lemma matches_any_Exists patterns file :
  matches_any patterns file = true ↔
  Exists (λ pattern, re_match pattern file = true) patterns.
Proof.
  induction patterns as [|p ps IH]; simpl.
  - rewrite Exists_nil. done.
  - rewrite Exists_cons, <- IH. destruct (re_match p file); intuition congruence.
Qed.

Lemma protected_dirs_eq :
  protected_dirs = [py ".github/"; py "SRAFrontend/"; py "setup/"].
Proof. reflexivity. Qed.

Lemma protected_names_eq :
  protected_names =
  [py "README.md"; py "package.py"; py ".gitignore"; py ".gitattributes"].
Proof. reflexivity. Qed.

(** What [is_excluded] decides, on every string: the [$] of a file-name
    pattern also accepts the name followed by one final line feed. *)
Lemma is_excluded_iff p :
  is_excluded p = true ↔
  Exists (λ d, d `prefix_of` p) protected_dirs
  ∨ p ∈ protected_names
  ∨ Exists (λ n, p = n ++ [LF]) protected_names.
Proof.
  unfold is_excluded. rewrite matches_any_Exists.
  rewrite protected_dirs_eq, protected_names_eq.
  unfold excluded_patterns.
  rewrite !Exists_cons, !Exists_nil, !elem_of_cons, elem_of_nil.
  rewrite (re_match_prefix _ (py ".github/")) by reflexivity.
  rewrite (re_match_prefix _ (py "SRAFrontend/")) by reflexivity.
  rewrite (re_match_prefix _ (py "setup/")) by reflexivity.
  rewrite (re_match_exact _ (py "README.md")) by reflexivity.
  rewrite (re_match_exact _ (py "package.py")) by reflexivity.
  rewrite (re_match_exact _ (py ".gitignore")) by reflexivity.
  rewrite (re_match_exact _ (py ".gitattributes")) by reflexivity.
  tauto.
Qed.

Lemma with_LF_has_LF (n : pystr) : LF ∈ n ++ [LF].
Proof. apply elem_of_app. right. by left. Qed.

(** ** Change-set resolution *)

Lemma filter_loop_spec files filtered_files :
  filter_loop files filtered_files =
  filtered_files ++ List.filter (λ f, negb (is_excluded f)) files.
Proof.
  revert filtered_files. induction files as [|f files IH]; intros acc.
  - simpl. by rewrite app_nil_r.
  - cbn [filter_loop List.filter]. rewrite IH.
    change (matches_any excluded_patterns f) with (is_excluded f).
    destruct (is_excluded f); cbn [negb]; [done | by rewrite <- app_assoc].
Qed.

Lemma all_files_nil : all_files [] = [].
Proof. reflexivity. Qed.

Lemma changed_files_of_spec output :
  changed_files_of output =
  List.filter (λ f, negb (is_excluded f)) (all_files output).
Proof.
  unfold changed_files_of, pystr_eqb. case_bool_decide as E.
  - by rewrite E.
  - apply filter_loop_spec.
Qed.

(** *** The backend's listing is read back as it was written *)

Lemma drop_while_length f s : length (drop_while f s) ≤ length s.
Proof.
  induction s as [|c s IH]; simpl; [done|]. destruct (f c); simpl; lia.
Qed.

Lemma rstrip_by_length f s : length (rstrip_by f s) ≤ length s.
Proof.
  unfold rstrip_by. rewrite length_rev.
  etrans; [apply drop_while_length|]. by rewrite length_rev.
Qed.

Lemma strip_by_length f s : length (strip_by f s) ≤ length s.
Proof.
  unfold strip_by. etrans; [apply rstrip_by_length | apply drop_while_length].
Qed.

Lemma rstrip_by_snoc f s d :
  rstrip_by f (s ++ [d]) = if f d then rstrip_by f s else s ++ [d].
Proof.
  unfold rstrip_by. rewrite rev_app_distr. simpl.
  destruct (f d); [done|]. simpl. by rewrite rev_involutive.
Qed.

Lemma strip_fixed_head f c s :
  strip_by f (c :: s) = c :: s → f c = false.
Proof.
  intros H. destruct (f c) eqn:E; [|done].
  apply (f_equal length) in H. unfold strip_by, lstrip_by in H.
  simpl in H. rewrite E in H.
  pose proof (rstrip_by_length f (drop_while f s)).
  pose proof (drop_while_length f s). lia.
Qed.

Lemma strip_fixed_last f s d :
  strip_by f (s ++ [d]) = s ++ [d] → f d = false.
Proof.
  intros H. destruct (f d) eqn:E; [|done].
  assert (drop_while f (s ++ [d]) = s ++ [d]) as Hl.
  { destruct s as [|c s]; simpl in *.
    - unfold strip_by, lstrip_by in H. simpl in H. rewrite E in H. done.
    - apply strip_fixed_head in H as ->. done. }
  unfold strip_by, lstrip_by in H. rewrite Hl, rstrip_by_snoc, E in H.
  apply (f_equal length) in H. rewrite length_app in H. simpl in H.
  pose proof (rstrip_by_length f s). lia.
Qed.

Lemma split_piece sep p rest :
  sep ∉ p → split sep (p ++ sep :: rest) = p :: split sep rest.
Proof.
  induction p as [|c p IH]; intros Hp; simpl.
  - by rewrite N.eqb_refl.
  - apply not_elem_of_cons in Hp as [Hc Hp].
    destruct (N.eqb_spec c sep); [congruence|]. by rewrite IH.
Qed.

Lemma split_single sep p : sep ∉ p → split sep p = [p].
Proof.
  induction p as [|c p IH]; intros Hp; simpl; [done|].
  apply not_elem_of_cons in Hp as [Hc Hp].
  destruct (N.eqb_spec c sep); [congruence|]. by rewrite IH.
Qed.

Lemma listing_snoc paths p :
  listing (paths ++ [p]) = listing paths ++ p ++ [LF].
Proof.
  unfold listing. rewrite map_app, concat_app. simpl. by rewrite app_nil_r.
Qed.

Lemma split_listing paths p :
  Forall (λ q, LF ∉ q) paths → LF ∉ p →
  split LF (listing paths ++ p) = paths ++ [p].
Proof.
  intros Hps Hp. induction Hps as [|q paths Hq _ IH]; simpl.
  - by apply split_single.
  - unfold listing in *. simpl. rewrite <- !app_assoc. simpl.
    by rewrite split_piece, IH.
Qed.

Lemma strip_listing paths p :
  Forall clean_path paths → clean_path p →
  strip (listing paths ++ p ++ [LF]) = listing paths ++ p.
Proof.
  intros Hps (Hne & _ & Hfix).
  assert (∃ q d, p = q ++ [d]) as (q & d & ->).
  { destruct p as [|d q _] using rev_ind; [done | eauto]. }
  apply strip_fixed_last in Hfix as Hd.
  assert (∃ c s, listing paths ++ (q ++ [d]) ++ [LF] = c :: s
                 ∧ is_space c = false) as (c & s & Es & Hc).
  { destruct Hps as [|p1 paths (Hne1 & _ & Hfix1) _].
    - destruct q as [|c q]; simpl in *.
      + eauto.
      + apply strip_fixed_head in Hfix. eauto.
    - destruct p1 as [|c p1]; [done|].
      apply strip_fixed_head in Hfix1. simpl. eauto. }
  unfold strip, strip_by, lstrip_by. rewrite Es. simpl. rewrite Hc.
  rewrite <- Es, !app_assoc, rstrip_by_snoc.
  change (is_space LF) with true. cbn iota.
  by rewrite rstrip_by_snoc, Hd.
Qed.

Lemma all_files_clean paths :
  Forall clean_path paths →
  map strip (List.filter (λ f, negb (pystr_eqb (strip f) [])) paths) = paths.
Proof.
  induction 1 as [|p paths (Hne & _ & Hfix) _ IH]; simpl; [done|].
  unfold pystr_eqb at 1. rewrite Hfix. rewrite bool_decide_eq_false_2 by done.
  simpl. by rewrite Hfix, IH.
Qed.

(** Clean paths, one per line, come back unchanged and in order. *)
Lemma all_files_listing paths :
  Forall clean_path paths → all_files (strip (listing paths)) = paths.
Proof.
  intros Hps. destruct paths as [|p init _] using rev_ind; [by vm_compute|].
  apply Forall_app in Hps as Hps'. destruct Hps' as [Hinit Hp].
  rewrite Forall_singleton in Hp.
  rewrite listing_snoc, (strip_listing _ _ Hinit Hp).
  unfold all_files. rewrite split_listing.
  - by apply all_files_clean.
  - eapply Forall_impl; [exact Hinit|]. by intros ? (_ & ? & _).
  - by destruct Hp as (_ & ? & _).
Qed.

Lemma split_app sep s t :
  split sep (s ++ sep :: t) = split sep s ++ split sep t.
Proof.
  induction s as [|c s IH]; simpl.
  - by rewrite N.eqb_refl.
  - rewrite IH. destruct (split_cons_inv sep s) as (piece & pieces & ->).
    by destruct (c =? sep)%N.
Qed.

Lemma split_snoc sep s d :
  d ≠ sep →
  ∃ init last,
    split sep s = init ++ [last]
    ∧ split sep (s ++ [d]) = init ++ [last ++ [d]].
Proof.
  intros Hd. induction s as [|c s (init & last & E1 & E2)]; simpl.
  - exists [], []. destruct (N.eqb_spec d sep); [congruence|done].
  - rewrite E1, E2. destruct (c =? sep)%N.
    + by exists ([] :: init), last.
    + destruct init as [|piece init]; simpl.
      * by exists [], (c :: last).
      * by exists ((c :: piece) :: init), last.
Qed.

Lemma drop_while_snoc f s d :
  f d = true →
  drop_while f (s ++ [d])
  = match drop_while f s with [] => [] | t => t ++ [d] end.
Proof.
  intros Hd. induction s as [|c s IH]; simpl; [by rewrite Hd|].
  by destruct (f c).
Qed.

Lemma strip_by_snoc f s d :
  f d = true → strip_by f (s ++ [d]) = strip_by f s.
Proof.
  intros Hd. unfold strip_by, lstrip_by. rewrite drop_while_snoc by done.
  destruct (drop_while f s) as [|c t] eqn:E; [done|].
  change (c :: t ++ [d]) with ((c :: t) ++ [d]).
  by rewrite rstrip_by_snoc, Hd.
Qed.

Lemma strip_by_cons f c s :
  f c = true → strip_by f (c :: s) = strip_by f s.
Proof. intros Hc. unfold strip_by, lstrip_by. simpl. by rewrite Hc. Qed.

(** White space around the whole answer does not change the paths read
    from it. *)
Lemma all_files_cons_space c s :
  is_space c = true → all_files (c :: s) = all_files s.
Proof.
  intros Hc. unfold all_files. simpl.
  destruct (split_cons_inv LF s) as (piece & pieces & ->).
  destruct (c =? LF)%N; [done|].
  assert (strip (c :: piece) = strip piece) as E by by apply strip_by_cons.
  cbn [List.filter]. rewrite E.
  destruct (negb _); [cbn [map]; by rewrite E | done].
Qed.

Lemma all_files_snoc_space s d :
  is_space d = true → all_files (s ++ [d]) = all_files s.
Proof.
  intros Hd. unfold all_files. destruct (N.eqb_spec d LF) as [->|Hne].
  - rewrite split_app. simpl. rewrite List.filter_app, map_app. simpl.
    by rewrite app_nil_r.
  - destruct (split_snoc LF s d Hne) as (init & last & -> & ->).
    assert (strip (last ++ [d]) = strip last) as E by by apply strip_by_snoc.
    rewrite !List.filter_app, !map_app. f_equal. cbn [List.filter].
    rewrite E. destruct (negb _); [cbn [map]; by rewrite E | done].
Qed.

Lemma all_files_strip s : all_files (strip s) = all_files s.
Proof.
  unfold strip, strip_by, lstrip_by.
  assert (∀ t, all_files (rstrip_by is_space t) = all_files t) as ->.
  { intros t. induction t as [|d t IH] using rev_ind; [done|].
    rewrite rstrip_by_snoc. destruct (is_space d) eqn:Hd; [|done].
    by rewrite IH, all_files_snoc_space. }
  induction s as [|c s IH]; simpl; [done|].
  destruct (is_space c) eqn:Hc; [|done].
  by rewrite IH, all_files_cons_space.
Qed.

(** The paths read from a listing: every line stripped, the blank ones
    left out. *)
Lemma all_files_read paths :
  Forall (λ p, LF ∉ p) paths →
  all_files (strip (listing paths))
  = map strip (List.filter (λ p, negb (pystr_eqb (strip p) [])) paths).
Proof.
  intros Hps. rewrite all_files_strip. unfold all_files.
  rewrite <- (app_nil_r (listing paths)).
  rewrite split_listing by (done || apply not_elem_of_nil).
  rewrite List.filter_app, map_app. simpl. by rewrite app_nil_r.
Qed.

(** ** Running commands *)

Lemma run_cmd_eq e cmd capture w :
  ∃ evs,
    run_cmd e cmd capture w =
      (Val (if capture then (answer e w cmd).1 else [], (answer e w cmd).2),
       World (inputs w) (gitattributes w) (evs ++ trace w))
    ∧ (evs = [EvCmd cmd capture]
       ∨ evs = [EvPrint MsgCmdError; EvPrint (MsgCmdFailed cmd);
                EvCmd cmd capture]).
Proof.
  unfold run_cmd, answer.
  destruct (backend e (trace w) cmd) as [[out code]|].
  - exists [EvCmd cmd capture]. split; [done | by left].
  - eexists. split; [|by right]. by destruct capture.
Qed.

Example excluded_directory_prefix : is_excluded (py "setup/x.txt") = true.
Proof. reflexivity. Qed.

Example shared_characters_only : is_excluded (py "setup2/x.txt") = false.
Proof. reflexivity. Qed.

Example file_name_itself : is_excluded (py "README.md") = true.
Proof. reflexivity. Qed.

Example file_name_as_prefix : is_excluded (py "README.md.bak") = false.
Proof. reflexivity. Qed.

Example file_name_below_directory : is_excluded (py "docs/README.md") = false.
Proof. reflexivity. Qed.

Example eligible_set_scenario :
  changed_files_of
    (strip (listing [py "src/a.txt"; py ".github/workflows/ci.yml";
                     py "README.md"]))
  = [py "src/a.txt"].
Proof. reflexivity. Qed.

(** C1, as the code has it.  Whatever the backend answers to the
    diff-paths query, [get_changed_files] returns normally and no returned
    path is excluded.  When the answer lists paths one per line, every line
    is read through [strip] and the blank ones are dropped; the result is
    the paths so read that no exclusion pattern matches, in the order
    listed.  For listed paths that are not empty and have no white space at
    either end, this is the list of the non-excluded listed paths. *)
Theorem get_changed_files_filtered (e : env) (w : world) :
  ∃ result w',
    get_changed_files e w = (Val result, w')
    ∧ Forall (λ f, is_excluded f = false) result
    ∧ ∀ paths code,
        Forall (λ p, LF ∉ p) paths →
        backend e (trace w) diff_names_cmd = Some (listing paths, code) →
        result
        = List.filter (λ f, negb (is_excluded f))
            (map strip
               (List.filter (λ p, negb (pystr_eqb (strip p) [])) paths))
        ∧ (Forall clean_path paths →
           result = List.filter (λ f, negb (is_excluded f)) paths).
Proof.
  unfold get_changed_files, bind.
  destruct (run_cmd_eq e diff_names_cmd true w) as (evs & -> & _).
  eexists _, _. split; [reflexivity|]. cbn [fst].
  rewrite changed_files_of_spec. split.
  - apply Forall_forall. intros f Hf.
    apply list_elem_of_In, filter_In in Hf as [_ Hf].
    by apply negb_true_iff.
  - intros paths code Hlines Hb. unfold answer. rewrite Hb. cbn [fst].
    rewrite all_files_read by done. split; [done|].
    intros Hclean. by rewrite all_files_clean.
Qed.

Lemma get_changed_files_filtered_witness :
  ∃ w',
    get_changed_files
      (scripted_env (listing [py "src/a.txt"; py "setup/x"; py " b.py"])
                    0 0 true)
      (World [] None [])
    = (Val [py "src/a.txt"; py "b.py"], w').
Proof.
  destruct (get_changed_files_filtered
              (scripted_env
                 (listing [py "src/a.txt"; py "setup/x"; py " b.py"])
                 0 0 true)
              (World [] None [])) as (result & w' & E & _ & Hread).
  destruct (Hread [py "src/a.txt"; py "setup/x"; py " b.py"] 0%Z)
    as [Hresult _].
  - apply (bool_decide_unpack _). by vm_compute.
  - reflexivity.
  - exists w'. rewrite E, Hresult. reflexivity.
Defined.

(** C1, the claim refuted: the backend lists three paths, none of them
    excluded; two have a blank at the end.  The first is read as README.md
    and dropped, the second comes back under another name: neither is in
    the result. *)
Lemma listed_path_not_returned :
  Forall (λ p, is_excluded p = false)
         [py "README.md "; py "notes.txt "; py "keep.txt"]
  ∧ ∃ result w',
      get_changed_files
        (scripted_env
           (listing [py "README.md "; py "notes.txt "; py "keep.txt"])
           0 0 true)
        (World [] None [])
      = (Val result, w')
      ∧ result = [py "notes.txt"; py "keep.txt"]
      ∧ (py "README.md " ∉ result)
      ∧ (py "notes.txt " ∉ result).
Proof.
  split.
  - repeat (apply List.Forall_cons; [reflexivity|]). apply List.Forall_nil.
  - eexists _, _. split; [reflexivity|]. split; [reflexivity|].
    split; apply (bool_decide_unpack _); by vm_compute.
Qed.

(** C2. On a path (a single line, as every path read from the backend is),
    a pattern for a directory excludes exactly the paths that begin with the
    directory name and its slash, and a pattern for a file name excludes
    exactly that name: a path is excluded if and only if it begins with one
    of the protected directory prefixes or is one of the protected names. *)
Theorem exclusion_is_segment_anchored (p : pystr) :
  LF ∉ p →
  is_excluded p = true ↔
  Exists (λ d, d `prefix_of` p) protected_dirs ∨ p ∈ protected_names.
Proof.
  intros Hp. rewrite is_excluded_iff. split; [|tauto].
  intros [H|[H|H]]; [tauto | tauto |].
  apply Exists_exists in H as (n & _ & ->).
  destruct Hp. apply with_LF_has_LF.
Qed.

Lemma exclusion_is_segment_anchored_witness :
  is_excluded (py "setup/x.txt") = true ↔
  Exists (λ d, d `prefix_of` py "setup/x.txt") protected_dirs
  ∨ py "setup/x.txt" ∈ protected_names.
Proof.
  apply (exclusion_is_segment_anchored (py "setup/x.txt")).
  apply (bool_decide_unpack _). vm_compute. exact I.
Defined.

(** ** Traces of the operations *)

Lemma count_app f evs1 evs2 : count f (evs1 ++ evs2) = count f evs1 + count f evs2.
Proof. unfold count. by rewrite List.filter_app, length_app. Qed.

Lemma count_quiet f evs : Forall (λ ev, f ev = false) evs → count f evs = 0.
Proof.
  unfold count. induction 1 as [|ev evs H _ IH]; simpl; [done|]. by rewrite H.
Qed.

Lemma grows_refl w : grows w w [].
Proof. by split. Qed.

Lemma grows_trans w1 w2 w3 evs1 evs2 :
  grows w1 w2 evs1 → grows w2 w3 evs2 → grows w1 w3 (evs2 ++ evs1).
Proof.
  intros [H1 L1] [H2 L2]. split; [|lia]. by rewrite H2, H1, app_assoc.
Qed.

Lemma quiet_ret {A} f (a : A) : quiet f (ret a).
Proof. intros w. exists []. by repeat split. Qed.

Lemma quiet_raise {A} f x : quiet f (@raise A x).
Proof. intros w. exists []. by repeat split. Qed.

Lemma quiet_emit f ev : f ev = false → quiet f (emit ev).
Proof.
  intros H w. exists [ev]. repeat split; simpl; auto.
Qed.

Lemma quiet_print f m : f (EvPrint m) = false → quiet f (print m).
Proof. apply quiet_emit. Qed.

Lemma quiet_input f p : f (EvAsk p) = false → quiet f (input p).
Proof.
  intros H w. exists [EvAsk p]. unfold input, grows.
  destruct (inputs w); simpl; repeat split; auto.
Qed.

Lemma quiet_at_bind {A B} f (m : M A) (k : A → M B) w :
  quiet_at f m w →
  (∀ a w1, m w = (Val a, w1) → quiet_at f (k a) w1) →
  quiet_at f (bind m k) w.
Proof.
  intros (evs1 & G1 & F1 & D1) Hk. unfold quiet_at, bind.
  destruct (m w) as [[a|x|] w1] eqn:E; simpl in *; [|by eauto|done].
  destruct (Hk a w1 eq_refl) as (evs2 & G2 & F2 & D2).
  exists (evs2 ++ evs1). split; [by eapply grows_trans|].
  split; [by apply Forall_app|done].
Qed.

Lemma quiet_bind {A B} f (m : M A) (k : A → M B) :
  quiet f m → (∀ a, quiet f (k a)) → quiet f (bind m k).
Proof. intros Hm Hk w. apply quiet_at_bind; [apply Hm|]. intros. apply Hk. Qed.

Section Quiet.
Variable e : env.
Variable f : event → bool.
Hypothesis f_print : ∀ m, f (EvPrint m) = false.
Hypothesis f_cmd : ∀ cmd capture, f (EvCmd cmd capture) = false.
Hypothesis f_editor : ∀ file, f (EvEditor file) = false.
Hypothesis f_ask : ∀ p, p ≠ PromptMenu → f (EvAsk p) = false.

Lemma quiet_run_cmd cmd capture : quiet f (run_cmd e cmd capture).
Proof.
  intros w. destruct (run_cmd_eq e cmd capture w) as (evs & E & Hevs).
  exists evs. rewrite E. simpl. split; [by split|]. split; [|done].
  destruct Hevs as [-> | ->]; repeat constructor; auto.
Qed.

Ltac quiet_step :=
  first
    [ apply quiet_ret
    | apply quiet_raise
    | apply quiet_print; apply f_print
    | apply quiet_emit; apply f_editor
    | apply quiet_input; apply f_ask; discriminate
    | apply quiet_run_cmd
    | apply quiet_bind; [|intros ?]
    | match goal with
      | |- quiet _ (if ?b then _ else _) => destruct b
      | |- quiet _ (match ?x with [] => _ | _ :: _ => _ end) => destruct x
      end ].

Lemma quiet_fetch_upstream : quiet f (fetch_upstream e).
Proof. unfold fetch_upstream. repeat quiet_step. Qed.

Lemma quiet_get_changed_files : quiet f (get_changed_files e).
Proof. unfold get_changed_files. repeat quiet_step. Qed.

Lemma quiet_show_status : quiet f (show_status e).
Proof. unfold show_status. repeat quiet_step. Qed.

Lemma quiet_preview_loop idx total files :
  quiet f (preview_loop e idx total files).
Proof.
  revert idx. induction files as [|file rest IH]; intros idx; simpl.
  - apply quiet_ret.
  - repeat quiet_step; apply IH.
Qed.

Lemma quiet_preview_changes files : quiet f (preview_changes e files).
Proof.
  unfold preview_changes. destruct files as [|file rest].
  - repeat quiet_step.
  - repeat quiet_step; apply quiet_preview_loop.
Qed.

Lemma quiet_restore_excluded patterns : quiet f (restore_excluded e patterns).
Proof.
  induction patterns as [|pattern rest IH]; simpl; [apply quiet_ret|].
  repeat quiet_step; apply IH.
Qed.

Lemma quiet_apply_all_changes files : quiet f (apply_all_changes e files).
Proof.
  unfold apply_all_changes. destruct files as [|file rest].
  - repeat quiet_step.
  - repeat first
      [apply quiet_restore_excluded | apply quiet_show_status | quiet_step].
Qed.

Lemma quiet_list_files i files file_map : quiet f (list_files i files file_map).
Proof.
  revert i file_map. induction files as [|file rest IH]; intros i fm; simpl.
  - apply quiet_ret.
  - repeat quiet_step; apply IH.
Qed.

Lemma quiet_checkout_selected selected : quiet f (checkout_selected e selected).
Proof.
  induction selected as [|file rest IH]; simpl; [apply quiet_ret|].
  repeat quiet_step; apply IH.
Qed.

Lemma quiet_open_in_editor conflict_files :
  quiet f (open_in_editor e conflict_files).
Proof.
  induction conflict_files as [|file rest IH]; simpl; [apply quiet_ret|].
  repeat quiet_step; apply IH.
Qed.

Lemma quiet_check_conflicts : quiet f (check_conflicts e).
Proof.
  unfold check_conflicts. repeat quiet_step; apply quiet_open_in_editor.
Qed.

Lemma quiet_show_summary files : quiet f (show_summary files).
Proof. unfold show_summary. repeat quiet_step. Qed.

Lemma quiet_after_operation choice : quiet f (after_operation choice).
Proof. unfold after_operation. repeat quiet_step. Qed.

Lemma quiet_ensure_remote : quiet f (ensure_remote e).
Proof. unfold ensure_remote. repeat quiet_step. Qed.

Lemma quiet_at_select_loop fuel files file_map w :
  length (inputs w) < fuel →
  quiet_at f (select_loop fuel files file_map) w.
Proof.
  revert w. induction fuel as [|fuel IH]; intros w Hlen; [lia|].
  cbn [select_loop]. apply quiet_at_bind.
  { apply quiet_input, f_ask. discriminate. }
  intros line w1 E. unfold input in E.
  destruct (inputs w) as [|l rest] eqn:Ein; [done|].
  injection E as -> <-. simpl in Hlen.
  destruct (pystr_eqb _ _); [apply quiet_ret|].
  destruct (pystr_eqb _ _); [apply quiet_ret|].
  destruct (parse_numbers _ _ _) as [selected [num|]].
  - apply quiet_at_bind; [apply quiet_print, f_print|].
    intros [] w2 E. injection E as <-. apply IH. simpl. lia.
  - destruct selected; [|apply quiet_ret]. apply IH. simpl. lia.
Qed.

Lemma quiet_interactive_select files : quiet f (interactive_select e files).
Proof.
  unfold interactive_select. destruct files as [|file rest].
  { apply quiet_print, f_print. }
  intros w. apply quiet_at_bind; [apply quiet_print, f_print|].
  intros _ w1 _. apply quiet_at_bind; [apply quiet_list_files|].
  intros file_map w2 _. apply quiet_at_bind.
  { exists []. by repeat split. }
  intros fuel w3 E. injection E as <- <-.
  apply quiet_at_bind; [apply quiet_at_select_loop; lia|].
  intros [selected|] w4 _; [|apply quiet_ret].
  revert w4.
  repeat first
    [apply quiet_checkout_selected | apply quiet_show_status | quiet_step].
Qed.

Lemma quiet_dispatch files choice : quiet f (dispatch e files choice).
Proof.
  unfold dispatch.
  repeat first
    [ apply quiet_preview_changes | apply quiet_apply_all_changes
    | apply quiet_interactive_select | apply quiet_check_conflicts
    | apply quiet_show_status | apply quiet_after_operation
    | quiet_step ].
Qed.

End Quiet.

Lemma is_menu_print m : is_menu (EvPrint m) = false.
Proof. done. Qed.
Lemma is_menu_cmd cmd capture : is_menu (EvCmd cmd capture) = false.
Proof. done. Qed.
Lemma is_menu_editor file : is_menu (EvEditor file) = false.
Proof. done. Qed.
Lemma is_menu_ask p : p ≠ PromptMenu → is_menu (EvAsk p) = false.
Proof. by destruct p. Qed.

Create HintDb menu discriminated.
#[local] Hint Resolve is_menu_print is_menu_cmd is_menu_editor is_menu_ask : menu.

(** ** The main loop *)

Lemma seg_bind {A B} (m : M A) (k : A → M B) w Q1 Q :
  seg_at m w Q1 →
  (∀ a w1 evs1, grows w w1 evs1 → Q1 (Val a) w1 evs1 →
     seg_at (k a) w1 (λ r w2 evs2, Q r w2 (evs2 ++ evs1))) →
  (∀ x w1 evs1, grows w w1 evs1 → Q1 (Raise x) w1 evs1 → Q (Raise x) w1 evs1) →
  (∀ w1 evs1, Q1 Diverge w1 evs1 → Q Diverge w1 evs1) →
  seg_at (bind m k) w Q.
Proof.
  intros (evs1 & G1 & H1) Hk Hx Hd. unfold seg_at, bind.
  destruct (m w) as [[a|x|] w1]; simpl in *.
  - destruct (Hk a w1 evs1 G1 H1) as (evs2 & G2 & H2).
    exists (evs2 ++ evs1). split; [by eapply grows_trans | done].
  - exists evs1. eauto.
  - exists evs1. eauto.
Qed.

Lemma quiet_seg {A} f (m : M A) w :
  quiet f m →
  seg_at m w (λ r _ evs, Forall (λ ev, f ev = false) evs ∧ r ≠ Diverge).
Proof. intros H. destruct (H w) as (evs & G & F & D). by exists evs. Qed.

Lemma seg_ret {A} (a : A) w (Q : outcome A → world → list event → Prop) :
  Q (Val a) w [] → seg_at (ret a) w Q.
Proof. intros H. exists []. split; [apply grows_refl | done]. Qed.

Lemma seg_print m w :
  seg_at (print m) w (λ r w' evs, evs = [EvPrint m] ∧ r = Val tt).
Proof. exists [EvPrint m]. by repeat split. Qed.

Lemma seg_print_quiet m w :
  seg_at (print m) w (λ r w' evs,
    Forall (λ ev, is_menu ev = false) evs ∧ r = Val tt).
Proof.
  exists [EvPrint m]. split; [by split|]. split; [|done].
  by apply Forall_singleton.
Qed.

Lemma seg_input p w :
  seg_at (input p) w (λ r w' evs,
    evs = [EvAsk p] ∧ r ≠ Diverge
    ∧ ∀ line, r = Val line → length (inputs w') < length (inputs w)).
Proof.
  exists [EvAsk p]. unfold input, grows.
  destruct (inputs w); simpl; repeat split; try done; try lia.
Qed.

Lemma seg_run_cmd e cmd capture w :
  seg_at (run_cmd e cmd capture) w (λ r w' evs,
    Forall (λ ev, is_menu ev = false) evs
    ∧ count (is_cmd cmd) evs = 1
    ∧ ∃ a, r = Val a).
Proof.
  destruct (run_cmd_eq e cmd capture w) as (evs & E & Hevs).
  exists evs. rewrite E. simpl. split; [by split|].
  assert (pystr_eqb cmd cmd = true) as Hc.
  { unfold pystr_eqb. by apply bool_decide_eq_true. }
  destruct Hevs as [-> | ->];
    (split; [repeat (apply List.Forall_cons; [done|]); apply List.Forall_nil|]);
    unfold count; simpl; rewrite Hc; eauto.
Qed.

Lemma seg_of_quiet {A} f (m : M A) w
    (Q : outcome A → world → list event → Prop) :
  quiet f m →
  (∀ r w' evs, grows w w' evs → Forall (λ ev, f ev = false) evs →
     r ≠ Diverge → Q r w' evs) →
  seg_at m w Q.
Proof.
  intros H HQ. destruct (H w) as (evs & G & F & D). exists evs. auto.
Qed.

Lemma ensure_remote_false e w w' :
  ensure_remote e w = (Val false, w') → length (inputs w') < length (inputs w).
Proof.
  unfold ensure_remote, bind.
  destruct (run_cmd_eq e (py "git remote -v") true w) as (evs & -> & _).
  destruct (negb _); [|done]. unfold print, emit, input. simpl.
  destruct (inputs w) as [|line rest]; [done|].
  match goal with |- context [if ?b then _ else _] => destruct b end.
  - match goal with |- context [run_cmd e ?c ?b ?w0] =>
      destruct (run_cmd_eq e c b w0) as (evs' & -> & _) end.
    done.
  - unfold ret. intros [= <-]. simpl. lia.
Qed.

Lemma ensure_remote_seg e w :
  seg_at (ensure_remote e) w (λ r w' evs,
    Forall (λ ev, is_menu ev = false) evs ∧ r ≠ Diverge
    ∧ (r = Val false → length (inputs w') < length (inputs w))).
Proof.
  destruct (quiet_ensure_remote e is_menu is_menu_print is_menu_cmd
              is_menu_ask w) as (evs & G & F & D).
  exists evs. split; [done|]. split; [done|]. split; [done|].
  intros Hr. apply (ensure_remote_false e).
  rewrite <- Hr. apply surjective_pairing.
Qed.

Lemma quiet_fetch_rest e f (a : pystr * Z) :
  (∀ m, f (EvPrint m) = false) →
  (∀ cmd capture, f (EvCmd cmd capture) = false) →
  quiet f
    (if (a.2 =? 0)%Z then
       l <- run_cmd e (py "git log -1 --oneline upstream/main") true ;;
       _ <- (if negb (pystr_eqb l.1 []) then
               _ <- print MsgFetchDone ;;
               print (MsgLatestCommit (take 60 l.1))
             else print MsgFetchDone) ;;
       ret true
     else
       _ <- print MsgFetchFailed ;;
       ret false)%prog.
Proof.
  intros Hp Hc.
  repeat first [ apply quiet_run_cmd; done
               | apply quiet_print; done
               | apply quiet_ret
               | apply quiet_bind; [|intros ?]
               | match goal with
                 | |- quiet _ (if ?b then _ else _) => destruct b
                 end ].
Qed.

Lemma fetch_upstream_seg e w :
  seg_at (fetch_upstream e) w (λ r w' evs,
    Forall (λ ev, is_menu ev = false) evs
    ∧ 1 ≤ count (is_cmd fetch_cmd) evs ∧ r ≠ Diverge).
Proof.
  unfold fetch_upstream.
  eapply seg_bind; [apply seg_print| | |];
    [|by intros ??? _ []|by intros ?? []].
  intros [] w1 evs1 _ [-> _].
  eapply seg_bind; [apply seg_run_cmd| | |]; cbn beta;
    [|by intros ???? (_ & _ & [])|by intros ?? (_ & _ & [])].
  intros a w2 evs2 _ (F2 & C2 & _).
  eapply (seg_of_quiet is_menu); [apply quiet_fetch_rest; done|].
  intros r w3 evs3 _ F3 D3.
  rewrite !count_app, C2. split; [|split; [lia|done]].
  repeat (apply Forall_app; split); try done. by repeat constructor.
Qed.

Lemma get_changed_files_seg e w :
  seg_at (get_changed_files e) w (λ r w' evs,
    Forall (λ ev, is_menu ev = false) evs
    ∧ 1 ≤ count (is_cmd diff_names_cmd) evs ∧ r ≠ Diverge).
Proof.
  unfold get_changed_files.
  eapply seg_bind; [apply seg_run_cmd| | |]; cbn beta;
    [|by intros ???? (_ & _ & [])|by intros ?? (_ & _ & [])].
  intros a w1 evs1 _ (F1 & C1 & _). apply seg_ret.
  rewrite app_nil_l, C1. done.
Qed.

Lemma menu_step_seg e files w :
  seg_at (menu_step e files) w (λ r w' evs,
    count is_menu evs ≤ 1 ∧ r ≠ Diverge
    ∧ ∀ next, r = Val next → length (inputs w') < length (inputs w)).
Proof.
  unfold menu_step.
  eapply seg_bind; [apply seg_print| | |];
    [|by intros ??? _ []|by intros ?? []].
  intros [] w1 evs1 G1 [-> _].
  eapply seg_bind; [apply seg_input| | |]; cbn beta;
    [| |by intros ?? (_ & [] & _)].
  - intros line w2 evs2 G2 (-> & _ & Hlt). specialize (Hlt _ eq_refl).
    eapply seg_of_quiet.
    { apply (quiet_dispatch e is_menu); auto with menu. }
    intros r w3 evs3 G3 F3 D3.
    rewrite !count_app, (count_quiet _ _ F3).
    split; [by cbn|]. split; [done|]. intros next _.
    destruct G1, G3. lia.
  - intros x w2 evs3 _ (-> & _ & _). by cbn.
Qed.

Lemma seg_weaken {A} (m : M A) w
    (Q Q' : outcome A → world → list event → Prop) :
  seg_at m w Q →
  (∀ r w' evs, grows w w' evs → Q r w' evs → Q' r w' evs) →
  seg_at m w Q'.
Proof. intros (evs & G & H) HQ. exists evs. auto. Qed.

Ltac post_tac :=
  unfold iteration_post; rewrite ?app_nil_l, ?app_nil_r, ?count_app;
  repeat match goal with
         | F : Forall (λ ev, is_menu ev = false) ?evs |- _ =>
             rewrite (count_quiet is_menu evs F); clear F
         end;
  repeat match goal with G : grows _ _ _ |- _ => destruct G as [_ G] end;
  repeat split; try done; try lia.

Lemma main_iteration_seg e w :
  seg_at (main_iteration e) w (iteration_post (length (inputs w))).
Proof.
  unfold main_iteration.
  eapply seg_bind; [apply (quiet_seg is_menu), quiet_print; done| | |];
    [|intros x w1 evs1 G1 [F1 _]; post_tac|by intros ?? []].
  intros [] w1 evs1 G1 [F1 _].
  eapply seg_bind; [apply ensure_remote_seg| | |]; cbn beta;
    [|intros x w2 evs2 G2 (F2 & _ & _); post_tac|by intros ?? (_ & [] & _)].
  intros configured w2 evs2 G2 (F2 & _ & Hfalse).
  destruct configured; cbn [negb].
  2: { apply seg_ret. specialize (Hfalse eq_refl). post_tac. }
  clear Hfalse.
  eapply seg_bind; [apply fetch_upstream_seg| | |]; cbn beta;
    [|intros x w3 evs3 G3 (F3 & _ & _); post_tac|by intros ?? (_ & _ & [])].
  intros fetched w3 evs3 G3 (F3 & C3 & _).
  destruct fetched; cbn [negb].
  2: { eapply seg_bind; [apply seg_print_quiet| | |];
         [|by intros ??? _ []|by intros ?? []].
       intros [] w4 evs4 G4 [F4 _]. apply seg_ret. post_tac. }
  eapply seg_bind; [apply get_changed_files_seg| | |]; cbn beta;
    [|intros x w4 evs4 G4 (F4 & _ & _); post_tac|by intros ?? (_ & _ & [])].
  intros files w4 evs4 G4 (F4 & C4 & _).
  eapply seg_bind; [apply (quiet_seg is_menu)| | |]; cbn beta.
  - destruct files.
    + apply quiet_bind; [|intros ?]; by apply quiet_print.
    + by apply quiet_print.
  - intros [] w5 evs5 G5 [F5 _].
    eapply seg_weaken; [apply menu_step_seg|]. cbn beta.
    intros r w6 evs6 G6 (C6 & D6 & Hlt).
    unfold iteration_post. rewrite ?app_nil_l, ?app_nil_r, ?count_app.
    rewrite (count_quiet is_menu evs1 F1), (count_quiet is_menu evs2 F2),
      (count_quiet is_menu evs3 F3), (count_quiet is_menu evs4 F4),
      (count_quiet is_menu evs5 F5).
    destruct G1, G2, G3, G4, G5.
    repeat split; [lia | lia | | done].
    intros Hr. specialize (Hlt _ Hr). lia.
  - intros x w5 evs5 G5 [F5 _]. post_tac.
  - by intros ?? [].
Qed.

Lemma main_loop_fuel_seg e fuel w :
  length (inputs w) < fuel →
  seg_at (main_loop_fuel e fuel) w (λ r w' evs,
    count is_menu evs ≤ count (is_cmd fetch_cmd) evs
    ∧ count is_menu evs ≤ count (is_cmd diff_names_cmd) evs
    ∧ r ≠ Diverge).
Proof.
  revert w. induction fuel as [|fuel IH]; intros w Hlen; [lia|].
  cbn [main_loop_fuel].
  eapply seg_bind; [apply main_iteration_seg| | |]; cbn beta.
  - intros next w1 evs1 G1 (Cf & Cd & Hlt & _). destruct next.
    + eapply seg_weaken; [apply IH; specialize (Hlt eq_refl); lia|].
      cbn beta. intros r w2 evs2 _ (Cf2 & Cd2 & D2).
      rewrite !count_app. repeat split; [lia | lia | done].
    + apply seg_ret. rewrite app_nil_l. done.
  - intros x w1 evs1 _ (Cf & Cd & _ & _). done.
  - by intros ?? (_ & _ & _ & []).
Qed.

Lemma main_loop_fuel_unfold e fuel w :
  main_loop_fuel e (S fuel) w =
  match main_iteration e w with
  | (Val Continue, w') => main_loop_fuel e fuel w'
  | (Val Break, w') => (Val tt, w')
  | (Raise x, w') => (Raise x, w')
  | (Diverge, w') => (Diverge, w')
  end.
Proof.
  cbn [main_loop_fuel]. unfold bind.
  by destruct (main_iteration e w) as [[[]|x|] w'].
Qed.

(** After an operation, any answer but 0 sends the loop round again. *)
Lemma after_operation_goes_on choice w cont rest :
  inputs w = cont :: rest → strip cont ≠ py "0" →
  ∃ w', after_operation choice w = (Val Continue, w') ∧ inputs w' = rest.
Proof.
  intros Hin Hc. unfold after_operation, bind.
  destruct (_ || _); unfold print, emit, ret, input; cbn [inputs gitattributes trace];
    rewrite Hin, (pystr_eqb_ne _ _ Hc); eauto.
Qed.

(** The loop always comes to an end on a finite script of input lines: by
    an exit choice, a failed fetch, or the end of the input. *)
Lemma main_loop_returns e w : (main_loop e w).1 ≠ Diverge.
Proof.
  unfold main_loop.
  destruct (main_loop_fuel_seg e (S (length (inputs w))) w)
    as (evs & _ & _ & _ & H); [lia|]. apply H.
Qed.



(** ** Commands issued by the apply operations *)

Lemma commands_of_app evs1 evs2 :
  commands_of (evs2 ++ evs1) = commands_of evs1 ++ commands_of evs2.
Proof. unfold commands_of. by rewrite omap_app, rev_app_distr. Qed.

Lemma issues_ret {A} (a : A) w : issues (ret a) w a [].
Proof. exists w. by rewrite app_nil_r. Qed.

Lemma issues_print m w : issues (print m) w tt [].
Proof. eexists. split; [done|]. simpl. by rewrite app_nil_r. Qed.

Lemma issues_run_cmd e cmd capture w :
  issues (run_cmd e cmd capture) w
    (if capture then (answer e w cmd).1 else [], (answer e w cmd).2) [cmd].
Proof.
  destruct (run_cmd_eq e cmd capture w) as (evs & E & Hevs).
  eexists. split; [exact E|]. split; [done|]. simpl.
  rewrite commands_of_app. by destruct Hevs as [-> | ->].
Qed.

Lemma runs_bind {A B} (m : M A) (k : A → M B) w a b ins1 ins2 cmds1 cmds2 :
  runs m w a ins1 cmds1 →
  (∀ w1, inputs w1 = ins1 → runs (k a) w1 b ins2 cmds2) →
  runs (bind m k) w b ins2 (cmds1 ++ cmds2).
Proof.
  intros (w1 & E1 & I1 & C1) Hk.
  destruct (Hk w1 I1) as (w2 & E2 & I2 & C2).
  exists w2. unfold bind. rewrite E1. split; [done|].
  split; [done|]. by rewrite C2, C1, app_assoc.
Qed.

Lemma issues_bind {A B} (m : M A) (k : A → M B) w a b cmds1 cmds2 :
  issues m w a cmds1 →
  (∀ w1, inputs w1 = inputs w → issues (k a) w1 b cmds2) →
  issues (bind m k) w b (cmds1 ++ cmds2).
Proof.
  intros Hm Hk. eapply runs_bind; [exact Hm|].
  intros w1 I1. unfold issues in Hk. rewrite <- I1. by apply Hk.
Qed.

Lemma issues_restore_excluded e patterns w :
  issues (restore_excluded e patterns) w tt
    (map (λ pattern, checkout_head (restore_path pattern)) patterns).
Proof.
  revert w. induction patterns as [|pattern rest IH]; intros w; simpl.
  - apply issues_ret.
  - eapply (issues_bind _ _ _ _ _ [_]); [apply issues_run_cmd|].
    intros w1 _. apply IH.
Qed.

Lemma issues_show_status e w : issues (show_status e) w tt [status_cmd].
Proof.
  unfold show_status.
  eapply (issues_bind _ _ _ _ _ []); [apply issues_print|]. intros w1 _.
  eapply (issues_bind _ _ _ _ _ [_] []); [apply issues_run_cmd|]. intros w2 _.
  apply issues_ret.
Qed.

Lemma issues_checkout_selected e selected w :
  issues (checkout_selected e selected) w tt (map checkout_upstream selected).
Proof.
  revert w. induction selected as [|file rest IH]; intros w; simpl.
  - apply issues_ret.
  - eapply (issues_bind _ _ _ _ _ []); [apply issues_print|]. intros w1 _.
    eapply (issues_bind _ _ _ _ _ [_]); [apply issues_run_cmd|]. intros w2 _.
    apply IH.
Qed.

Lemma issues_list_files i files file_map w :
  issues (list_files i files file_map) w (file_map_of i files file_map) [].
Proof.
  revert i file_map w. induction files as [|file rest IH]; intros i fm w; simpl.
  - apply issues_ret.
  - eapply (issues_bind _ _ _ _ _ []); [apply issues_print|]. intros w1 _.
    apply IH.
Qed.

(** [apply_all_changes] up to the merge, once the operator has confirmed. *)
Lemma apply_all_confirmed e files w confirm rest :
  files ≠ [] → inputs w = confirm :: rest → lower confirm = py "y" →
  apply_all_changes e files w =
  (r <- run_cmd e merge_cmd false ;;
   if negb (r.2 =? 0)%Z then print MsgMergeFailed
   else
     _ <- restore_excluded e excluded_patterns ;;
     _ <- print MsgStaged ;;
     show_status e) (at_merge files w rest).
Proof.
  intros Hne Hin Hy. destruct files as [|file files']; [done|].
  unfold apply_all_changes.
  unfold bind at 1. unfold print at 1, emit. cbn [fst snd].
  unfold bind at 1. unfold input. cbn [inputs gitattributes trace].
  rewrite Hin, Hy. rewrite pystr_eqb_eq by done. cbn [negb].
  unfold bind at 1. unfold print at 1, emit. cbn [inputs gitattributes trace].
  reflexivity.
Qed.

Example restore_paths_listed :
  map restore_path excluded_patterns =
  [py ".github"; py "SRAFrontend"; py "setup"; py "README.md";
   py "package.py"; py ".gitignore"; py ".gitattributes"].
Proof. reflexivity. Qed.

(** The restored path is the cleaned pattern, without the final slash of a
    directory pattern. *)
Lemma restore_path_clean pattern :
  pattern ∈ excluded_patterns →
  restore_path pattern = clean_pattern pattern
  ∨ clean_pattern pattern = restore_path pattern ++ py "/".
Proof.
  unfold excluded_patterns. rewrite !elem_of_cons, elem_of_nil.
  intros [->|[->|[->|[->|[->|[->|[->|[]]]]]]]]; vm_compute; auto.
Qed.

(** X20. After a confirmed apply-all whose merge has returned exit code 0,
    the command lines issued are the merge, one checkout from HEAD per
    exclusion pattern, in the order of the patterns, and the status
    display; the checkout is given the pattern without its anchors, with
    its escaped dots unescaped and without the final slash of a
    directory. *)
Theorem apply_all_issues_the_restores (e : env) (files : list pystr)
    (w : world) (confirm : pystr) (rest : list pystr) :
  files ≠ [] →
  inputs w = confirm :: rest →
  lower confirm = py "y" →
  (answer e (at_merge files w rest)
          (py "git merge --no-commit --no-ff upstream/main")).2 = 0%Z →
  runs (apply_all_changes e files) w tt rest
    [ py "git merge --no-commit --no-ff upstream/main";
      py "git checkout HEAD -- .github";
      py "git checkout HEAD -- SRAFrontend";
      py "git checkout HEAD -- setup";
      py "git checkout HEAD -- README.md";
      py "git checkout HEAD -- package.py";
      py "git checkout HEAD -- .gitignore";
      py "git checkout HEAD -- .gitattributes";
      py "git status" ].
Proof.
  intros Hne Hin Hy Hcode.
  unfold runs. rewrite (apply_all_confirmed e files w confirm rest) by done.
  assert (commands_of (trace (at_merge files w rest)) = commands_of (trace w))
    as <- by done.
  change rest with (inputs (at_merge files w rest)) at 2.
  eapply (issues_bind _ _ _ _ _ [_]); [apply issues_run_cmd|].
  intros w1 _. cbn [snd]. change merge_cmd with
    (py "git merge --no-commit --no-ff upstream/main"). rewrite Hcode.
  cbn [Z.eqb negb].
  eapply (issues_bind _ _ _ _ _
            (map (λ pattern, checkout_head (restore_path pattern))
                 excluded_patterns));
    [apply issues_restore_excluded|]. intros w2 _.
  eapply (issues_bind _ _ _ _ _ []); [apply issues_print|]. intros w3 _.
  apply issues_show_status.
Qed.

Lemma apply_all_issues_the_restores_witness :
  runs (apply_all_changes (scripted_env (listing five_files) 0 0 true)
          five_files)
       (World [py "Y"; py "0"] None []) tt [py "0"]
    [ py "git merge --no-commit --no-ff upstream/main";
      py "git checkout HEAD -- .github";
      py "git checkout HEAD -- SRAFrontend";
      py "git checkout HEAD -- setup";
      py "git checkout HEAD -- README.md";
      py "git checkout HEAD -- package.py";
      py "git checkout HEAD -- .gitignore";
      py "git checkout HEAD -- .gitattributes";
      py "git status" ].
Proof.
  apply (apply_all_issues_the_restores
           (scripted_env (listing five_files) 0 0 true) five_files
           (World [py "Y"; py "0"] None []) (py "Y") [py "0"]);
    [discriminate | reflexivity | reflexivity | reflexivity].
Defined.

(** C3, the code at the failing input: the merge succeeds and every
    checkout from HEAD fails with exit code 1.  The run is event for event
    the run in which every checkout succeeds: the seven checkouts are
    issued, none of their exit codes is looked at, and the operation
    reports that the update is staged. *)
Theorem failed_restore_reported_as_staged :
  let run code := apply_all_changes (restore_env code) five_files
                                    (World [py "y"; py "0"] None []) in
  run 1%Z = run 0%Z
  ∧ (run 1%Z).1 = Val tt
  ∧ trace (run 1%Z).2
    = [ EvCmd (py "git status") false;
        EvPrint MsgStatusHeader;
        EvPrint MsgStaged;
        EvCmd (py "git checkout HEAD -- .gitattributes") false;
        EvCmd (py "git checkout HEAD -- .gitignore") false;
        EvCmd (py "git checkout HEAD -- package.py") false;
        EvCmd (py "git checkout HEAD -- README.md") false;
        EvCmd (py "git checkout HEAD -- setup") false;
        EvCmd (py "git checkout HEAD -- SRAFrontend") false;
        EvCmd (py "git checkout HEAD -- .github") false;
        EvCmd (py "git merge --no-commit --no-ff upstream/main") false;
        EvPrint MsgApplying;
        EvAsk PromptConfirmAll;
        EvPrint (MsgAboutToApply five_files) ]
  ∧ Forall (λ cmd, restore_backend 1%Z [] cmd = Some ([], 1%Z))
      [ py "git checkout HEAD -- .github";
        py "git checkout HEAD -- SRAFrontend";
        py "git checkout HEAD -- setup";
        py "git checkout HEAD -- README.md";
        py "git checkout HEAD -- package.py";
        py "git checkout HEAD -- .gitignore";
        py "git checkout HEAD -- .gitattributes" ].
Proof.
  split; [by vm_compute|]. split; [by vm_compute|].
  split; [by vm_compute|].
  repeat (apply List.Forall_cons; [reflexivity|]). apply List.Forall_nil.
Qed.

(** C6, as the code has it.  In apply-all, when the merge does not return
    exit code 0, the operation reports that the merge failed and returns:
    the merge is the only command it has run, the failure message is the
    last thing it did, and no unmerged-path query follows. *)
Theorem failed_merge_is_only_reported (e : env) (files : list pystr)
    (w : world) (confirm : pystr) (rest : list pystr) :
  files ≠ [] →
  inputs w = confirm :: rest →
  lower confirm = py "y" →
  (answer e (at_merge files w rest) merge_cmd).2 ≠ 0%Z →
  runs (apply_all_changes e files) w tt rest [merge_cmd]
  ∧ head (trace (apply_all_changes e files w).2) = Some (EvPrint MsgMergeFailed).
Proof.
  intros Hne Hin Hy Hcode.
  apply Z.eqb_neq in Hcode. split.
  - unfold runs. rewrite (apply_all_confirmed e files w confirm rest) by done.
    assert (commands_of (trace (at_merge files w rest))
            = commands_of (trace w)) as <- by done.
    change rest with (inputs (at_merge files w rest)) at 2.
    eapply (issues_bind _ _ _ _ _ [_] []); [apply issues_run_cmd|].
    intros w1 _. cbn [snd]. rewrite Hcode. apply issues_print.
  - rewrite (apply_all_confirmed e files w confirm rest) by done.
    unfold bind.
    destruct (run_cmd_eq e merge_cmd false (at_merge files w rest))
      as (evs & -> & _).
    cbn [snd]. by rewrite Hcode.
Qed.

Lemma failed_merge_is_only_reported_witness :
  runs (apply_all_changes (scripted_env (listing five_files) 0 1 true)
          five_files)
       (World [py "y"; py "0"] None []) tt [py "0"] [merge_cmd]
  ∧ head (trace (apply_all_changes
                   (scripted_env (listing five_files) 0 1 true) five_files
                   (World [py "y"; py "0"] None [])).2)
    = Some (EvPrint MsgMergeFailed).
Proof.
  apply (failed_merge_is_only_reported
           (scripted_env (listing five_files) 0 1 true) five_files
           (World [py "y"; py "0"] None []) (py "y") [py "0"]);
    [discriminate | reflexivity | reflexivity | discriminate].
Defined.

(** C6, the claim refuted: the merge fails (exit code 1).  The workflow
    prints the failure and the follow-up hints, asks whether to go on, and
    on an empty line starts the next iteration; the unmerged-path query is
    never run. *)
Lemma failed_merge_returns_to_menu :
  let w' := (main_loop (scripted_env (listing five_files) 0 1 true)
               (World [py "2"; py "y"; []; py "0"] None [])).2 in
  commands_of (trace w')
  = [ py "git remote -v"; fetch_cmd; py "git log -1 --oneline upstream/main";
      diff_names_cmd; merge_cmd;
      py "git remote -v"; fetch_cmd; py "git log -1 --oneline upstream/main";
      diff_names_cmd ]
  ∧ (unmerged_cmd ∉ commands_of (trace w'))
  ∧ (EvPrint MsgMergeFailed ∈ trace w').
Proof.
  split; [by vm_compute|].
  split; apply (bool_decide_unpack _); by vm_compute.
Qed.

(** ** Merge protection *)

Lemma setup_present e w c :
  gitattributes w = Some c →
  ∃ evs,
    _setup_merge_protection e w =
      (Val tt, World (inputs w) (Some c) (evs ++ trace w))
    ∧ count is_write evs = 0.
Proof.
  intros Hc. unfold _setup_merge_protection, try_except, bind, attributes_exist.
  rewrite Hc. rewrite bool_decide_eq_true_2 by eauto. cbn [negb ret].
  destruct (run_cmd_eq e config_cmd true w) as (evs & -> & Hevs).
  exists evs. rewrite Hc. split; [done|]. by destruct Hevs as [-> | ->].
Qed.

Lemma setup_absent_written e w :
  gitattributes w = None → write_ok e = true →
  ∃ evs,
    _setup_merge_protection e w =
      (Val tt,
       World (inputs w) (Some (protection_content excluded_patterns))
             (evs ++ trace w)).
Proof.
  intros Hc Hw.
  unfold _setup_merge_protection, try_except, bind, attributes_exist.
  rewrite Hc. rewrite bool_decide_eq_false_2 by (by intros [? ?]).
  cbn [negb]. unfold write_text. rewrite Hw. unfold print, emit.
  cbn [inputs gitattributes trace fst snd].
  match goal with |- context [run_cmd e config_cmd true ?w0] =>
    destruct (run_cmd_eq e config_cmd true w0) as (evs & -> & _) end.
  cbn [inputs gitattributes trace ret].
  exists (evs ++ [EvPrint MsgProtectionCreated;
                  EvWrite (protection_content excluded_patterns)]).
  by rewrite <- app_assoc.
Qed.

Lemma setup_absent_failed e w :
  gitattributes w = None → write_ok e = false →
  _setup_merge_protection e w =
    (Val tt, World (inputs w) None (EvPrint MsgProtectionFailed :: trace w)).
Proof.
  intros Hc Hw.
  unfold _setup_merge_protection, try_except, bind, attributes_exist.
  rewrite Hc. rewrite bool_decide_eq_false_2 by (by intros [? ?]).
  cbn [negb]. unfold write_text. rewrite Hw. unfold print, emit.
  by rewrite Hc.
Qed.

Lemma protection_content_lines patterns header :
  fold_left (λ content pattern, content ++ directive pattern) patterns header
  = header ++ concat (map directive patterns).
Proof.
  revert header. induction patterns as [|p ps IH]; intros header; simpl.
  - by rewrite app_nil_r.
  - by rewrite IH, app_assoc.
Qed.

Example directives_listed :
  map directive excluded_patterns =
  [ py ".github/* merge=ours" ++ [LF];
    py "SRAFrontend/* merge=ours" ++ [LF];
    py "setup/* merge=ours" ++ [LF];
    py "README.md merge=ours" ++ [LF];
    py "package.py merge=ours" ++ [LF];
    py ".gitignore merge=ours" ++ [LF];
    py ".gitattributes merge=ours" ++ [LF] ].
Proof. reflexivity. Qed.

(** C4. Setting up the merge protection twice leaves .gitattributes as the
    first run left it, and the second run writes nothing.  A file that is
    already there is not written at all.  A file that is created holds the
    header line followed by one line per pattern, in the order of the
    pattern list: the pattern without its anchors and with its escaped dots
    unescaped, then "* merge=ours" for a directory and " merge=ours" for a
    file name. *)
Theorem setup_merge_protection_idempotent (e : env) (w : world) :
  let w1 := (_setup_merge_protection e w).2 in
  let w2 := (_setup_merge_protection e w1).2 in
  gitattributes w2 = gitattributes w1
  ∧ count is_write (trace w2) = count is_write (trace w1)
  ∧ (∀ c, gitattributes w = Some c →
          gitattributes w1 = Some c
          ∧ count is_write (trace w1) = count is_write (trace w))
  ∧ (gitattributes w = None → write_ok e = true →
       gitattributes w1
       = Some ([35; 32; 21512; 24182; 20445; 25252; 37197; 32622; 10]%N
             ++ py ".github/* merge=ours" ++ [10%N]
             ++ py "SRAFrontend/* merge=ours" ++ [10%N]
             ++ py "setup/* merge=ours" ++ [10%N]
             ++ py "README.md merge=ours" ++ [10%N]
             ++ py "package.py merge=ours" ++ [10%N]
             ++ py ".gitignore merge=ours" ++ [10%N]
             ++ py ".gitattributes merge=ours" ++ [10%N])).
Proof.
  intros w1 w2.
  assert (∀ w0 c, gitattributes w0 = Some c →
            gitattributes (_setup_merge_protection e w0).2 = Some c
            ∧ count is_write (trace (_setup_merge_protection e w0).2)
              = count is_write (trace w0)) as Hpresent.
  { intros w0 c Hc. destruct (setup_present e w0 c Hc) as (evs & -> & Hevs).
    simpl. by rewrite count_app, Hevs. }
  split; [|split; [|split]].
  - subst w2. destruct (gitattributes w1) as [c|] eqn:E1.
    + by apply Hpresent.
    + destruct (write_ok e) eqn:Hw.
      * subst w1. destruct (gitattributes w) as [c|] eqn:E0.
        -- destruct (Hpresent w c E0) as [? _]. congruence.
        -- destruct (setup_absent_written e w E0 Hw) as (evs & H).
           rewrite H in E1. done.
      * by rewrite (setup_absent_failed e w1 E1 Hw).
  - subst w2. destruct (gitattributes w1) as [c|] eqn:E1.
    + by apply (Hpresent w1 c).
    + destruct (write_ok e) eqn:Hw.
      * subst w1. destruct (gitattributes w) as [c|] eqn:E0.
        -- destruct (Hpresent w c E0) as [? _]. congruence.
        -- destruct (setup_absent_written e w E0 Hw) as (evs & H).
           rewrite H in E1. done.
      * by rewrite (setup_absent_failed e w1 E1 Hw).
  - intros c Hc. by apply Hpresent.
  - intros Hc Hw. subst w1.
    destruct (setup_absent_written e w Hc Hw) as (evs & ->). done.
Qed.

Lemma setup_merge_protection_idempotent_witness :
  let e := scripted_env [] 0 0 true in
  let w1 := (_setup_merge_protection e (World [] None [])).2 in
  let w2 := (_setup_merge_protection e w1).2 in
  gitattributes w2 = gitattributes w1
  ∧ count is_write (trace w2) = count is_write (trace w1)
  ∧ gitattributes w1
    = Some ([35; 32; 21512; 24182; 20445; 25252; 37197; 32622; 10]%N
          ++ py ".github/* merge=ours" ++ [10%N]
          ++ py "SRAFrontend/* merge=ours" ++ [10%N]
          ++ py "setup/* merge=ours" ++ [10%N]
          ++ py "README.md merge=ours" ++ [10%N]
          ++ py "package.py merge=ours" ++ [10%N]
          ++ py ".gitignore merge=ours" ++ [10%N]
          ++ py ".gitattributes merge=ours" ++ [10%N]).
Proof.
  pose proof (setup_merge_protection_idempotent
                (scripted_env [] 0 0 true) (World [] None [])) as H.
  cbv zeta in H. destruct H as (H1 & H2 & _ & H4).
  split; [exact H1|]. split; [exact H2|]. apply H4; reflexivity.
Defined.

(** ** Numbers and the selection dictionary *)

Lemma digits_are_digits d : Forall is_digit (digits d).
Proof.
  induction d; simpl; constructor; try done; unfold is_digit; lia.
Qed.

Lemma digits_inj d d' : digits d = digits d' → d = d'.
Proof.
  revert d'. induction d; intros []; simpl; intros H; try done;
    injection H as H; f_equal; auto.
Qed.

Lemma to_uint_not_nil n : Nat.to_uint n ≠ Decimal.Nil.
Proof.
  rewrite <- (DecimalNat.Unsigned.of_to n) at 1.
  rewrite DecimalNat.Unsigned.to_of. unfold Decimal.unorm.
  by destruct (Decimal.nzhead (Nat.to_uint n)).
Qed.

Lemma str_inj n n' : str n = str n' → n = n'.
Proof.
  intros H. by apply DecimalNat.Unsigned.to_uint_inj, digits_inj.
Qed.

Lemma str_digits n : Forall is_digit (str n).
Proof. apply digits_are_digits. Qed.

Lemma str_not_nil n : str n ≠ [].
Proof.
  unfold str. pose proof (to_uint_not_nil n).
  by destruct (Nat.to_uint n).
Qed.

Lemma digit_not_space c : is_digit c → is_space c = false.
Proof.
  unfold is_digit, is_space. intros H.
  repeat (apply orb_false_intro); try (apply N.eqb_neq; lia);
    apply andb_false_iff; rewrite !N.leb_gt; lia.
Qed.

Lemma strip_fixed s :
  (∀ c s', s = c :: s' → is_space c = false) →
  (∀ s' d, s = s' ++ [d] → is_space d = false) →
  strip s = s.
Proof.
  intros Hhead Hlast. unfold strip, strip_by, lstrip_by.
  destruct s as [|c s'] using rev_ind; [done|].
  assert (drop_while is_space (s' ++ [c]) = s' ++ [c]) as ->.
  { destruct s' as [|c0 s0]; simpl.
    - by rewrite (Hlast [] c).
    - by rewrite (Hhead c0 (s0 ++ [c])). }
  by rewrite rstrip_by_snoc, (Hlast s' c).
Qed.

Lemma strip_str n : strip (str n) = str n.
Proof.
  pose proof (str_digits n) as Hd. apply strip_fixed.
  - intros c s' E. rewrite E in Hd. apply digit_not_space.
    by apply Forall_cons in Hd as [? _].
  - intros s' d E. rewrite E in Hd. apply digit_not_space.
    apply Forall_app in Hd as [_ Hd]. by rewrite Forall_singleton in Hd.
Qed.

Lemma file_map_of_other i files file_map s :
  (∀ j, j < length files → s ≠ str (i + j)) →
  file_map_of i files file_map !! s = file_map !! s.
Proof.
  revert i file_map. induction files as [|f files IH]; intros i fm Hs; simpl.
  - done.
  - rewrite IH.
    + apply lookup_insert_ne. specialize (Hs 0). rewrite Nat.add_0_r in Hs.
      intros E. apply Hs; [simpl; lia | done].
    + intros j Hj. replace (S i + j) with (i + S j) by lia.
      apply Hs. simpl. lia.
Qed.

Lemma file_map_of_index i files file_map j f :
  files !! j = Some f →
  file_map_of i files file_map !! str (i + j) = Some f.
Proof.
  revert i file_map j. induction files as [|f0 files IH]; intros i fm j Hj.
  - done.
  - destruct j as [|j]; simpl in *.
    + injection Hj as ->. rewrite Nat.add_0_r, file_map_of_other.
      * apply lookup_insert_eq.
      * intros j _ E. apply str_inj in E. lia.
    + replace (i + S j) with (S i + j) by lia. by apply IH.
Qed.

Lemma file_map_of_Some i files file_map s f :
  file_map_of i files file_map !! s = Some f →
  (∃ j, files !! j = Some f ∧ s = str (i + j)) ∨ file_map !! s = Some f.
Proof.
  revert i file_map. induction files as [|f0 files IH]; intros i fm H; simpl in H.
  - by right.
  - apply IH in H as [(j & Hj & ->)|H].
    + left. exists (S j). split; [done|]. f_equal. lia.
    + destruct (decide (str i = s)) as [<-|Hne].
      * rewrite lookup_insert_eq in H. injection H as ->.
        left. exists 0. split; [done|]. by rewrite Nat.add_0_r.
      * rewrite lookup_insert_ne in H by done. by right.
Qed.

(** The keys of [file_map] are the numbers 1 to [len(files)], each bound
    to the file at that 1-based position. *)
Lemma file_map_lookup files s f :
  file_map_of 1 files ∅ !! s = Some f ↔
  ∃ j, files !! j = Some f ∧ s = str (S j).
Proof.
  split.
  - intros H. apply file_map_of_Some in H as [H|H]; [done|].
    by rewrite lookup_empty in H.
  - intros (j & Hj & ->). by apply (file_map_of_index 1).
Qed.

Lemma parse_numbers_valid (file_map : gmap pystr pystr) nums selected :
  Forall (λ num, is_Some (file_map !! strip num)) nums →
  parse_numbers file_map nums selected
  = (selected ++ omap (λ num, file_map !! strip num) nums, None).
Proof.
  intros H. revert selected.
  induction H as [|num nums [f Hf] _ IH]; intros selected; simpl.
  - by rewrite app_nil_r.
  - rewrite Hf, IH. by rewrite <- app_assoc.
Qed.

Lemma parse_numbers_invalid (file_map : gmap pystr pystr) nums selected :
  Exists (λ num, file_map !! strip num = None) nums →
  ∃ partial num,
    parse_numbers file_map nums selected = (partial, Some num)
    ∧ file_map !! num = None.
Proof.
  intros H. revert selected.
  induction H as [num nums Hn|num nums _ IH]; intros selected; simpl.
  - rewrite Hn. eauto.
  - destruct (file_map !! strip num) eqn:E; [apply IH | eauto].
Qed.

Lemma select_loop_step fuel files file_map w line rest :
  inputs w = line :: rest →
  select_loop (S fuel) files file_map w =
  (let choice := strip line in
   if pystr_eqb (lower choice) (py "q") then ret None
   else if pystr_eqb (lower choice) (py "a") then ret (Some files)
   else
     match parse_numbers file_map (split 44 choice) [] with
     | (selected, Some num) =>
         _ <- print (MsgInvalidNumber num) ;;
         select_loop fuel files file_map
     | (selected, None) =>
         match selected with
         | _ :: _ => ret (Some selected)
         | [] => select_loop fuel files file_map
         end
     end)
    (World rest (gitattributes w) (EvAsk PromptSelect :: trace w)).
Proof.
  intros Hin. cbn [select_loop]. unfold bind at 1, input. by rewrite Hin.
Qed.

(** ** Selecting files *)

Lemma valid_number_lookup files num :
  valid_number files num ↔ is_Some (file_map_of 1 files ∅ !! strip num).
Proof.
  split.
  - intros (j & Hj & E). apply lookup_lt_is_Some_2 in Hj as [f Hf].
    exists f. apply file_map_lookup. eauto.
  - intros [f Hf]. apply file_map_lookup in Hf as (j & Hj & E).
    exists j. split; [by apply lookup_lt_Some in Hj | done].
Qed.

Lemma invalid_number_lookup files num :
  ¬ valid_number files num → file_map_of 1 files ∅ !! strip num = None.
Proof.
  rewrite valid_number_lookup. intros H.
  destruct (file_map_of 1 files ∅ !! strip num) eqn:E; [|done].
  destruct H. eauto.
Qed.

Example empty_selection_invalid files : ¬ valid_number files [].
Proof.
  intros (j & _ & E). change (strip []) with (@nil N) in E.
  symmetry in E. by apply str_not_nil in E.
Qed.

(** The selection loop reads and prints, and runs no command. *)
Lemma select_loop_issues_nothing fuel files file_map w :
  length (inputs w) < fuel →
  quiet_at is_any_cmd (select_loop fuel files file_map) w.
Proof.
  apply quiet_at_select_loop; [done|]. by intros [].
Qed.

Lemma select_round_invalid (files : list pystr) (fuel : nat) (w : world)
    (line : pystr) (rest : list pystr) :
  inputs w = line :: rest →
  lower (strip line) ≠ py "q" →
  lower (strip line) ≠ py "a" →
  Exists (λ num, ¬ valid_number files num) (split 44 (strip line)) →
  ∃ num,
    select_loop (S fuel) files (file_map_of 1 files ∅) w
    = select_loop fuel files (file_map_of 1 files ∅)
        (World rest (gitattributes w)
               (EvPrint (MsgInvalidNumber num) :: EvAsk PromptSelect
                :: trace w)).
Proof.
  intros Hin Hq Ha Hex.
  rewrite (select_loop_step fuel files _ w line rest Hin). cbv zeta.
  rewrite (pystr_eqb_ne _ _ Hq), (pystr_eqb_ne _ _ Ha).
  destruct (parse_numbers_invalid (file_map_of 1 files ∅)
              (split 44 (strip line)) []) as (partial & num & -> & _).
  { eapply Exists_impl; [exact Hex|]. intros num. apply invalid_number_lookup. }
  by exists num.
Qed.

Lemma select_round_valid (files : list pystr) (fuel : nat) (w : world)
    (line : pystr) (rest : list pystr) :
  inputs w = line :: rest →
  lower (strip line) ≠ py "q" →
  lower (strip line) ≠ py "a" →
  Forall (valid_number files) (split 44 (strip line)) →
  select_loop (S fuel) files (file_map_of 1 files ∅) w
  = (Val (Some (omap (λ num, file_map_of 1 files ∅ !! strip num)
                     (split 44 (strip line)))),
     World rest (gitattributes w) (EvAsk PromptSelect :: trace w)).
Proof.
  intros Hin Hq Ha Hall.
  rewrite (select_loop_step fuel files _ w line rest Hin). cbv zeta.
  rewrite (pystr_eqb_ne _ _ Hq), (pystr_eqb_ne _ _ Ha).
  rewrite parse_numbers_valid.
  2: { eapply Forall_impl; [exact Hall|]. intros num.
       apply valid_number_lookup. }
  rewrite app_nil_l.
  destruct (split_cons_inv 44 (strip line)) as (num & nums' & E).
  rewrite E in *.
  apply Forall_cons in Hall as [Hnum _].
  apply valid_number_lookup in Hnum as [f Hf].
  cbn [omap list_omap]. by rewrite Hf.
Qed.

(** C10. One round of the selection loop, on a line that is neither q nor
    a.  If one of the comma-separated numbers is not a valid 1-based
    position in the change set (an empty line is such a case), the round
    only prompts and reports the first invalid number, and the loop goes on
    with the next line: no file is selected and no command is run, whatever
    valid numbers came first.  If every number is valid, the round returns
    the files at these positions, in the order entered; only then does
    [interactive_select] go on to its checkouts. *)
Theorem selection_is_atomic (files : list pystr) (fuel : nat) (w : world)
    (line : pystr) (rest : list pystr) :
  let file_map := file_map_of 1 files ∅ in
  let nums := split 44 (strip line) in
  inputs w = line :: rest →
  lower (strip line) ≠ py "q" →
  lower (strip line) ≠ py "a" →
  (Exists (λ num, ¬ valid_number files num) nums →
     ∃ num,
       select_loop (S fuel) files file_map w
       = select_loop fuel files file_map
           (World rest (gitattributes w)
                  (EvPrint (MsgInvalidNumber num) :: EvAsk PromptSelect
                   :: trace w)))
  ∧ (Forall (valid_number files) nums →
     select_loop (S fuel) files file_map w
     = (Val (Some (omap (λ num, file_map !! strip num) nums)),
        World rest (gitattributes w) (EvAsk PromptSelect :: trace w))).
Proof.
  intros file_map nums Hin Hq Ha. split.
  - by apply select_round_invalid.
  - by apply select_round_valid.
Qed.

Lemma selection_is_atomic_witness :
  (∃ num,
     select_loop 3 five_files (file_map_of 1 five_files ∅)
       (World [py "2,9"; py "q"] None [])
     = select_loop 2 five_files (file_map_of 1 five_files ∅)
         (World [py "q"] None
                [EvPrint (MsgInvalidNumber num); EvAsk PromptSelect]))
  ∧ select_loop 3 five_files (file_map_of 1 five_files ∅)
      (World [py " 2, 4"; py "q"] None [])
    = (Val (Some [py "b.py"; py "f"]),
       World [py "q"] None [EvAsk PromptSelect]).
Proof.
  split.
  - destruct (selection_is_atomic five_files 2
                (World [py "2,9"; py "q"] None []) (py "2,9") [py "q"])
      as [H _]; [reflexivity | discriminate | discriminate |].
    apply H. apply Exists_cons_tl, Exists_cons_hd.
    rewrite valid_number_lookup. by intros [f Hf].
  - destruct (selection_is_atomic five_files 2
                (World [py " 2, 4"; py "q"] None []) (py " 2, 4") [py "q"])
      as [_ H]; [reflexivity | discriminate | discriminate |].
    apply H. apply Forall_cons. split; [|apply Forall_cons; split; [|done]].
    + exists 1. split; [simpl; lia | reflexivity].
    + exists 3. split; [simpl; lia | reflexivity].
Defined.

Lemma runs_cmds {A} (m : M A) w a ins cmds cmds' :
  runs m w a ins cmds → cmds = cmds' → runs m w a ins cmds'.
Proof. by intros H <-. Qed.

(** [interactive_select] around its selection loop. *)
Lemma interactive_select_with e files w rest selected :
  files ≠ [] →
  (∀ w1, inputs w1 = inputs w →
     runs (select_loop (S (length (inputs w))) files (file_map_of 1 files ∅))
          w1 (Some selected) rest []) →
  runs (interactive_select e files) w tt rest
       (map checkout_upstream selected ++ [status_cmd]).
Proof.
  intros Hne Hsel. unfold interactive_select.
  destruct files as [|file files']; [done|].
  eapply runs_cmds.
  - eapply runs_bind; [apply issues_print|]. intros w1 I1.
    eapply runs_bind; [apply issues_list_files|]. intros w2 I2.
    eapply (runs_bind _ _ _ _ _ (inputs w2) _ []).
    { exists w2. split; [reflexivity|]. by rewrite app_nil_r. }
    intros w3 I3. rewrite I2, I1.
    eapply runs_bind; [apply Hsel; congruence|]. intros w4 I4.
    eapply runs_bind; [apply issues_print|]. intros w5 I5.
    eapply runs_bind; [apply issues_checkout_selected|]. intros w6 I6.
    eapply runs_bind; [apply issues_print|]. intros w7 I7.
    rewrite <- I4, <- I5, <- I6, <- I7. apply issues_show_status.
  - by rewrite !app_nil_l.
Qed.

Lemma strip_no_space s : Forall (λ c, is_space c = false) s → strip s = s.
Proof.
  intros H. apply strip_fixed.
  - intros c s' ->. by apply Forall_cons in H as [? _].
  - intros s' d ->. apply Forall_app in H as [_ H].
    by rewrite Forall_singleton in H.
Qed.

Lemma split_join sep parts :
  parts ≠ [] → Forall (λ p, sep ∉ p) parts →
  split sep (join [sep] parts) = parts.
Proof.
  intros Hne H. induction H as [|p parts Hp Hparts IH]; [done|].
  destruct parts as [|q parts].
  - simpl. by apply split_single.
  - change (join [sep] (p :: q :: parts))
      with (p ++ sep :: join [sep] (q :: parts)).
    rewrite split_piece by done. by rewrite IH.
Qed.

Lemma join_numchars idxs : Forall is_numchar (join (py ",") (map str idxs)).
Proof.
  induction idxs as [|i idxs IH]; [constructor|].
  assert (Forall is_numchar (str i)) as Hi.
  { eapply Forall_impl; [apply str_digits|]. by left. }
  destruct idxs as [|i' idxs]; [done|].
  change (join (py ",") (map str (i :: i' :: idxs)))
    with (str i ++ 44%N :: join (py ",") (map str (i' :: idxs))).
  apply Forall_app. split; [done|]. apply Forall_cons. split; [by right|done].
Qed.

Lemma numchar_not_space c : is_numchar c → is_space c = false.
Proof. intros [H| ->]; [by apply digit_not_space | done]. Qed.

Lemma numchars_not_letter s (l : N) :
  (97 ≤ l)%N → s ≠ [] → Forall is_numchar s → lower s ≠ [l].
Proof.
  intros Hl Hne H. destruct H as [|c s Hc _]; [done|].
  simpl. intros [= E _]. unfold lower_char in E.
  destruct Hc as [Hc| ->]; [|simpl in E; lia].
  unfold is_digit in Hc.
  destruct (65 <=? c)%N eqn:E1; simpl in E; [|lia].
  apply N.leb_le in E1. lia.
Qed.

Lemma str_no_comma i : 44%N ∉ str i.
Proof.
  intros H. pose proof (str_digits i) as Hd.
  rewrite Forall_forall in Hd. apply Hd in H. unfold is_digit in H. lia.
Qed.

(** X21. Apply-selected on a line of comma-separated valid 1-based
    positions issues one upstream checkout command line per position, in
    the order entered, each made of the fixed text and the file at that
    position, then the status display; these are all the command lines it
    issues.  The file name is put into the line as it is. *)
Theorem apply_selected_exact (e : env) (files : list pystr) (idxs : list nat)
    (w : world) (rest : list pystr) :
  idxs ≠ [] →
  Forall (λ i, 1 ≤ i ≤ length files) idxs →
  inputs w = join (py ",") (map str idxs) :: rest →
  runs (interactive_select e files) w tt rest
       (map (λ file, py "git checkout upstream/main -- " ++ file)
            (omap (λ i, files !! (i - 1)) idxs)
        ++ [py "git status"]).
Proof.
  intros Hne Hidx Hin.
  change (runs (interactive_select e files) w tt rest
            (map checkout_upstream (omap (λ i, files !! (i - 1)) idxs)
             ++ [status_cmd])).
  set (line := join (py ",") (map str idxs)) in *.
  assert (line ≠ []) as Hline.
  { subst line. destruct idxs as [|i idxs]; [done|].
    pose proof (str_not_nil i). destruct idxs; simpl; [done|].
    by destruct (str i). }
  assert (strip line = line) as Hstrip.
  { apply strip_no_space. eapply Forall_impl; [apply join_numchars|].
    apply numchar_not_space. }
  assert (split 44 line = map str idxs) as Hsplit.
  { apply (split_join 44); [by destruct idxs|].
    apply Forall_forall. intros p Hp.
    apply list_elem_of_fmap in Hp as (i & -> & _). apply str_no_comma. }
  assert (Forall (valid_number files) (map str idxs)) as Hvalid.
  { apply Forall_fmap. eapply Forall_impl; [exact Hidx|].
    intros i Hi. cbn beta in Hi. exists (i - 1). rewrite strip_str.
    split; [lia | f_equal; lia]. }
  assert (omap (λ num, file_map_of 1 files ∅ !! strip num) (map str idxs)
          = omap (λ i, files !! (i - 1)) idxs) as Hsel.
  { clear Hne Hin Hvalid Hsplit Hstrip Hline line.
    induction Hidx as [|i idxs Hi _ IH]; [done|].
    cbn [map omap list_omap]. rewrite strip_str.
    destruct (lookup_lt_is_Some_2 files (i - 1)) as [f Hf]; [lia|].
    replace (str i) with (str (1 + (i - 1))) by (f_equal; lia).
    rewrite (file_map_of_index 1 files ∅ (i - 1) f Hf), Hf.
    f_equal. exact IH. }
  apply interactive_select_with.
  { intros ->. destruct idxs as [|i idxs]; [done|].
    apply Forall_cons in Hidx as [Hi _]. simpl in Hi. lia. }
  intros w1 I1. rewrite Hin in I1.
  exists (World rest (gitattributes w1) (EvAsk PromptSelect :: trace w1)).
  rewrite <- Hsel, <- Hsplit, <- Hstrip.
  rewrite (select_round_valid files _ w1 line rest I1).
  - split; [done|]. split; [done|]. simpl. by rewrite app_nil_r.
  - rewrite Hstrip. apply (numchars_not_letter line 113%N); [lia | done |].
    apply join_numchars.
  - rewrite Hstrip. apply (numchars_not_letter line 97%N); [lia | done |].
    apply join_numchars.
  - by rewrite Hstrip, Hsplit.
Qed.

(** The scenario of the specification: positions 2 and 4 of a change set
    of five. *)
Lemma apply_selected_exact_witness :
  runs (interactive_select (scripted_env (listing five_files) 0 0 true)
          five_files)
       (World [py "2,4"; py "0"] None []) tt [py "0"]
       [ py "git checkout upstream/main -- b.py";
         py "git checkout upstream/main -- f";
         py "git status" ].
Proof.
  apply (apply_selected_exact (scripted_env (listing five_files) 0 0 true)
           five_files [2; 4] (World [py "2,4"; py "0"] None []) [py "0"]).
  - discriminate.
  - repeat (apply Forall_cons; split; [simpl; lia|]). apply Forall_nil. done.
  - reflexivity.
Defined.

(** C8, the code at the failing input: the change set holds a file whose
    name has a blank, "a b", and the files "a" and "b"; the operator
    selects position 1.  The one checkout issued puts the name into the
    command line as it is, and the shell splits the line at the blank: the
    paths it names are "a" and "b", the two files that were not selected,
    and not the file that was. *)
Theorem blank_in_name_checks_out_other_files :
  let files := [py "a b"; py "a"; py "b"] in
  let r := interactive_select (scripted_env (listing files) 0 0 true) files
                              (World [py "1"; py "0"] None []) in
  file_map_of 1 files ∅ !! py "1" = Some (py "a b")
  ∧ r.1 = Val tt
  ∧ commands_of (trace r.2)
    = [py "git checkout upstream/main -- a b"; py "git status"]
  ∧ pathspecs (shell_words (py "git checkout upstream/main -- a b"))
    = [py "a"; py "b"].
Proof.
  split; [by vm_compute|]. split; [by vm_compute|].
  split; by vm_compute.
Qed.

Lemma select_round_all (files : list pystr) (fuel : nat)
    (file_map : gmap pystr pystr) (w : world) (line : pystr)
    (rest : list pystr) :
  inputs w = line :: rest →
  lower (strip line) = py "a" →
  select_loop (S fuel) files file_map w
  = (Val (Some files),
     World rest (gitattributes w) (EvAsk PromptSelect :: trace w)).
Proof.
  intros Hin Ha.
  rewrite (select_loop_step fuel files _ w line rest Hin). cbv zeta.
  by rewrite Ha.
Qed.

(** C5, as the code has it.  When the protection file cannot be written,
    the setup prints a warning and the constructor returns normally; the
    outcome is recorded nowhere.  Apply-all, once confirmed, still runs its
    merge, and apply-selected still checks out the selected files (here:
    all of them). *)
Theorem failed_protection_blocks_nothing (e : env) (w : world)
    (files : list pystr) (line : pystr) (rest : list pystr) :
  write_ok e = false →
  gitattributes w = None →
  files ≠ [] →
  inputs w = line :: rest →
  let w1 := World (inputs w) None (EvPrint MsgProtectionFailed :: trace w) in
  init e w = (Val tt, w1)
  ∧ (lower line = py "y" →
     ∃ more, runs (apply_all_changes e files) w1 tt rest (merge_cmd :: more))
  ∧ (lower (strip line) = py "a" →
     runs (interactive_select e files) w1 tt rest
          (map checkout_upstream files ++ [status_cmd])).
Proof.
  intros Hw Hattr Hne Hin w1. split; [|split].
  - by apply setup_absent_failed.
  - intros Hy. unfold runs.
    rewrite (apply_all_confirmed e files w1 line rest) by done.
    destruct (issues_run_cmd e merge_cmd false (at_merge files w1 rest))
      as (w2 & E2 & I2 & C2).
    unfold bind. rewrite E2. cbn [snd].
    assert (commands_of (trace (at_merge files w1 rest))
            = commands_of (trace w1)) as Hc by done.
    destruct (negb _).
    + destruct (issues_print MsgMergeFailed w2) as (w3 & E3 & I3 & C3).
      exists [], w3. split; [exact E3|]. split; [by rewrite I3, I2|].
      by rewrite C3, C2, Hc, app_nil_r.
    + edestruct (issues_bind (restore_excluded e excluded_patterns)
                   (λ _, bind (print MsgStaged) (λ _, show_status e)) w2)
        as (w3 & E3 & I3 & C3).
      { apply issues_restore_excluded. }
      { intros w' _. eapply (issues_bind _ _ _ _ _ []); [apply issues_print|].
        intros w'' _. apply issues_show_status. }
      eexists _, w3. split; [exact E3|]. split; [by rewrite I3, I2|].
      rewrite C3, C2, Hc. by rewrite <- app_assoc.
  - intros Ha. apply interactive_select_with; [done|].
    intros w2 I2. subst w1. cbn [inputs] in I2. rewrite Hin in I2.
    unfold runs. rewrite (select_round_all files _ _ w2 line rest I2 Ha).
    eexists. split; [done|]. split; [done|]. simpl. by rewrite app_nil_r.
Qed.

Lemma failed_protection_blocks_nothing_witness :
  let e := scripted_env (listing five_files) 0 0 false in
  init e (World [py "y"] None [])
  = (Val tt, World [py "y"] None [EvPrint MsgProtectionFailed])
  ∧ ∃ more,
      runs (apply_all_changes e five_files)
           (World [py "y"] None [EvPrint MsgProtectionFailed]) tt []
           (merge_cmd :: more).
Proof.
  destruct (failed_protection_blocks_nothing
              (scripted_env (listing five_files) 0 0 false)
              (World [py "y"] None []) five_files (py "y") [])
    as (H1 & H2 & _); [reflexivity | reflexivity | discriminate | reflexivity |].
  split; [exact H1 | apply H2; reflexivity].
Defined.

(** C5, the claim refuted: .gitattributes cannot be written, so the setup
    fails with a warning; the operator then applies all changes and
    confirms.  The merge and the restoring checkouts run all the same. *)
Lemma apply_all_runs_unprotected :
  let r := main (scripted_env (listing five_files) 0 0 false)
                (World [py "2"; py "y"; py "0"] None []) in
  r.1 = Val 0%Z
  ∧ gitattributes r.2 = None
  ∧ (EvPrint MsgProtectionFailed ∈ trace r.2)
  ∧ commands_of (trace r.2)
    = [ py "git remote -v"; fetch_cmd;
        py "git log -1 --oneline upstream/main"; diff_names_cmd;
        merge_cmd;
        py "git checkout HEAD -- .github";
        py "git checkout HEAD -- SRAFrontend";
        py "git checkout HEAD -- setup";
        py "git checkout HEAD -- README.md";
        py "git checkout HEAD -- package.py";
        py "git checkout HEAD -- .gitignore";
        py "git checkout HEAD -- .gitattributes";
        status_cmd ].
Proof.
  split; [by vm_compute|]. split; [by vm_compute|].
  split; [apply (bool_decide_unpack _); by vm_compute | by vm_compute].
Qed.

(** C9, the code at the failing input: the diff-paths query fails (exit
    code 128, nothing on standard output).  The run is event for event the
    run of a successful query that reports no divergence: it announces that
    everything is up to date and exits with code 0. *)
Theorem failed_diff_reported_up_to_date :
  let run code := main (scripted_env [] code 0 true)
                       (World [py "0"] None []) in
  run 128%Z = run 0%Z
  ∧ (run 128%Z).1 = Val 0%Z
  ∧ (EvPrint MsgUpToDate ∈ trace (run 128%Z).2).
Proof.
  split; [by vm_compute|]. split; [by vm_compute|].
  apply (bool_decide_unpack _). by vm_compute.
Qed.

(** The exit code of the diff-paths query never reaches the result of
    [get_changed_files]. *)
Lemma get_changed_files_ignores_exit_code e w :
  ∃ w', get_changed_files e w
        = (Val (changed_files_of (answer e w diff_names_cmd).1), w').
Proof.
  unfold get_changed_files, bind.
  destruct (run_cmd_eq e diff_names_cmd true w) as (evs & -> & _).
  by eexists.
Qed.

(** ** The program as a whole *)

Lemma init_returns e w : ∃ w', init e w = (Val tt, w').
Proof.
  unfold init. destruct (gitattributes w) as [c|] eqn:E.
  - destruct (setup_present e w c E) as (evs & -> & _). eauto.
  - destruct (write_ok e) eqn:Hw.
    + destruct (setup_absent_written e w E Hw) as (evs & ->). eauto.
    + rewrite (setup_absent_failed e w E Hw). eauto.
Qed.

(** [main] always returns an exit code on a finite script of input lines:
    the end of the input raises [EOFError], which [main] reports. *)
Lemma main_returns e w : ∃ code w', main e w = (Val code, w').
Proof.
  unfold main. destruct (negb (in_repo e)); [by eexists _, _|].
  destruct (negb (git_ok e)); [by eexists _, _|].
  unfold try_except, bind. destruct (init_returns e w) as (w1 & ->).
  pose proof (main_loop_returns e w1) as H.
  destruct (main_loop e w1) as [[[]|x|] w2]; simpl in *;
    [by eexists _, _ | destruct x; by eexists _, _ | done].
Qed.

(** * Further properties of the code *)

(** ** The paths read from a listing *)

Lemma drop_while_head f s c t : drop_while f s = c :: t → f c = false.
Proof.
  induction s as [|d s IH]; simpl; [done|].
  destruct (f d) eqn:E; [done|]. by intros [= -> _].
Qed.

Lemma rstrip_by_prefix f s : rstrip_by f s `prefix_of` s.
Proof.
  unfold rstrip_by. destruct (drop_while_suffix f (rev s)) as [k E].
  exists (rev k). apply (f_equal (@rev N)) in E.
  by rewrite rev_involutive, rev_app_distr in E.
Qed.

Lemma strip_by_idemp f s : strip_by f (strip_by f s) = strip_by f s.
Proof.
  set (u := lstrip_by f s). unfold strip_by at 2. fold u.
  destruct (rstrip_by f u) as [|c t _] eqn:E using rev_ind; [done|].
  unfold strip_by, lstrip_by.
  assert (f c = false) as Hc.
  { unfold rstrip_by in E. apply (f_equal (@rev N)) in E.
    rewrite rev_involutive, rev_app_distr in E. simpl in E.
    by apply drop_while_head in E. }
  assert (drop_while f (t ++ [c]) = t ++ [c]) as ->.
  { destruct t as [|d t]; simpl; [by rewrite Hc|].
    assert (f d = false) as ->; [|done].
    pose proof (rstrip_by_prefix f u) as [k Hk]. rewrite E in Hk.
    destruct u as [|d' u'] eqn:Eu; [done|]. simpl in Hk. injection Hk as <- _.
    unfold u, lstrip_by in Eu. by apply drop_while_head in Eu. }
  by rewrite rstrip_by_snoc, Hc.
Qed.

Lemma all_files_clean_paths output : Forall clean_path (all_files output).
Proof.
  apply Forall_forall. intros p Hp. split; [|split].
  - unfold all_files in Hp. apply list_elem_of_fmap in Hp as (q & -> & Hq).
    apply list_elem_of_In, filter_In in Hq as [_ Hq].
    apply negb_true_iff in Hq. unfold pystr_eqb in Hq.
    by apply bool_decide_eq_false in Hq.
  - by apply (all_files_no_LF output).
  - unfold all_files in Hp. apply list_elem_of_fmap in Hp as (q & -> & _).
    apply strip_by_idemp.
Qed.

(** X1. Whatever the backend prints, every path [get_changed_files] returns
    is usable as a path: not empty, on one line, without white space at
    either end.  Blank lines of the answer are dropped. *)
Theorem changed_files_are_clean_paths (e : env) (w : world) :
  ∃ files w',
    get_changed_files e w = (Val files, w') ∧ Forall clean_path files.
Proof.
  destruct (get_changed_files_ignores_exit_code e w) as (w' & E).
  eexists _, w'. split; [exact E|].
  rewrite changed_files_of_spec. apply Forall_forall. intros p Hp.
  apply list_elem_of_In, filter_In in Hp as [Hp _].
  apply list_elem_of_In in Hp.
  pose proof (all_files_clean_paths (answer e w diff_names_cmd).1) as H.
  rewrite Forall_forall in H. by apply H.
Qed.


(** ** Commands of the operations, on every input *)

Lemma emits_ret {A} e (a : A) w (C : outcome A → world → list pystr → Prop) :
  C (Val a) w [] → emits e (ret a) w C.
Proof. intros H. by exists []. Qed.

Lemma emits_raise {A} e x w (C : outcome A → world → list pystr → Prop) :
  C (Raise x) w [] → emits e (raise x) w C.
Proof. intros H. by exists []. Qed.

Lemma emits_print e m w (C : outcome unit → world → list pystr → Prop) :
  (∀ w', inputs w' = inputs w → C (Val tt) w' []) → emits e (print m) w C.
Proof.
  intros H. exists [EvPrint m]. split; [done|].
  split; [by apply Forall_singleton|]. by apply H.
Qed.

Lemma emits_editor e file w (C : outcome unit → world → list pystr → Prop) :
  path_exists e file = true →
  (∀ w', inputs w' = inputs w → C (Val tt) w' []) →
  emits e (emit (EvEditor file)) w C.
Proof.
  intros He H. exists [EvEditor file]. split; [done|].
  split; [by apply Forall_singleton|]. by apply H.
Qed.

Lemma emits_input e p w (C : outcome pystr → world → list pystr → Prop) :
  (inputs w = [] → ∀ w', inputs w' = [] → C (Raise EOFError) w' []) →
  (∀ line rest w', inputs w = line :: rest → inputs w' = rest →
     C (Val line) w' []) →
  emits e (input p) w C.
Proof.
  intros Hnil Hcons. exists [EvAsk p]. unfold input.
  destruct (inputs w) as [|line rest] eqn:E; simpl.
  - split; [done|]. split; [by apply Forall_singleton|]. by apply Hnil.
  - split; [done|]. split; [by apply Forall_singleton|]. by eapply Hcons.
Qed.

Lemma emits_run_cmd (e : env) (cmd : pystr) (capture : bool) (w : world)
    (C : outcome (pystr * Z) → world → list pystr → Prop) :
  (∀ w', inputs w' = inputs w →
     C (Val (if capture then (answer e w cmd).1 else [], (answer e w cmd).2))
       w' [cmd]) →
  emits e (run_cmd e cmd capture) w C.
Proof.
  intros H. destruct (run_cmd_eq e cmd capture w) as (evs & E & Hevs).
  exists evs. rewrite E. cbn [fst snd trace]. split; [done|].
  assert (commands_of evs = [cmd]) as -> by (by destruct Hevs as [-> | ->]).
  split; [|by apply H].
  destruct Hevs as [-> | ->];
    repeat (apply List.Forall_cons; [done|]); apply List.Forall_nil.
Qed.

Lemma emits_bind {A B} e (m : M A) (k : A → M B) w
    (C : outcome B → world → list pystr → Prop) :
  emits e m w (λ r w1 cs1,
    match r with
    | Val a => emits e (k a) w1 (λ r' w2 cs2, C r' w2 (cs1 ++ cs2))
    | Raise x => C (Raise x) w1 cs1
    | Diverge => C Diverge w1 cs1
    end) →
  emits e (bind m k) w C.
Proof.
  intros (evs1 & T1 & H1 & Hk). unfold emits, bind.
  destruct (m w) as [[a|x|] w1]; cbn [fst snd] in *.
  - destruct Hk as (evs2 & T2 & H2 & HC). exists (evs2 ++ evs1).
    split; [by rewrite T2, T1, app_assoc|].
    split; [by apply Forall_app|]. by rewrite commands_of_app.
  - by exists evs1.
  - by exists evs1.
Qed.

Lemma emits_conseq {A} e (m : M A) w
    (C C' : outcome A → world → list pystr → Prop) :
  emits e m w C → (∀ r w' cs, C r w' cs → C' r w' cs) → emits e m w C'.
Proof. intros (evs & T & H & HC) Himp. exists evs. auto. Qed.



Lemma lower_is_y s : lower s = py "y" → s = py "y" ∨ s = py "Y".
Proof.
  change (py "y") with [121%N]. change (py "Y") with [89%N].
  destruct s as [|c [|d s]]; simpl; try done. intros [= E].
  unfold lower_char in E.
  destruct ((65 <=? c)%N && (c <=? 90)%N) eqn:Hc.
  - right. f_equal. lia.
  - left. by f_equal.
Qed.

Lemma emits_restore_excluded e patterns w :
  emits e (restore_excluded e patterns) w (λ (r : outcome unit) w' cs,
    r = Val tt ∧ inputs w' = inputs w
    ∧ cs = map (λ pattern, checkout_head (restore_path pattern)) patterns).
Proof.
  revert w. induction patterns as [|pattern rest IH]; intros w; simpl.
  - by apply emits_ret.
  - apply emits_bind, emits_run_cmd. intros w1 I1.
    eapply emits_conseq; [apply IH|]. intros r w2 cs (-> & I2 & ->).
    split; [done|]. split; [congruence|done].
Qed.

Lemma emits_show_status e w :
  emits e (show_status e) w (λ (r : outcome unit) w' cs,
    r = Val tt ∧ inputs w' = inputs w ∧ cs = [status_cmd]).
Proof.
  unfold show_status. apply emits_bind, emits_print. intros w1 I1.
  apply emits_bind, emits_run_cmd. intros w2 I2.
  apply emits_ret. split; [done|]. split; [congruence|done].
Qed.

Lemma emits_checkout_selected e selected w :
  emits e (checkout_selected e selected) w (λ (r : outcome unit) w' cs,
    r = Val tt ∧ inputs w' = inputs w
    ∧ cs = map checkout_upstream selected).
Proof.
  revert w. induction selected as [|file rest IH]; intros w; simpl.
  - by apply emits_ret.
  - apply emits_bind, emits_print. intros w1 I1.
    apply emits_bind, emits_run_cmd. intros w2 I2.
    eapply emits_conseq; [apply IH|]. intros r w3 cs (-> & I3 & ->).
    split; [done|]. split; [congruence|done].
Qed.

Lemma emits_list_files e i files file_map w :
  emits e (list_files i files file_map) w
    (λ (r : outcome (gmap pystr pystr)) w' cs,
       r = Val (file_map_of i files file_map) ∧ inputs w' = inputs w
       ∧ cs = []).
Proof.
  revert i file_map w.
  induction files as [|file rest IH]; intros i fm w; simpl.
  - by apply emits_ret.
  - apply emits_bind, emits_print. intros w1 I1.
    eapply emits_conseq; [apply IH|]. intros r w2 cs (-> & I2 & ->).
    split; [done|]. split; [congruence|done].
Qed.

(** X3. Apply-all runs a command only after an explicit confirmation:
    whatever happens, either it has run no command at all, or the change
    set is not empty, the first line the operator typed is exactly y or Y,
    and the first command is the merge. *)
Theorem apply_all_needs_confirmation (e : env) (files : list pystr)
    (w : world) :
  ∃ evs,
    trace (apply_all_changes e files w).2 = evs ++ trace w
    ∧ Forall (harmless e) evs
    ∧ (commands_of evs = []
       ∨ (files ≠ []
          ∧ (∃ rest, inputs w = py "y" :: rest ∨ inputs w = py "Y" :: rest)
          ∧ ∃ more, commands_of evs = merge_cmd :: more)).
Proof.
  assert (emits e (apply_all_changes e files) w (λ (r : outcome unit) _ cs,
            cs = []
            ∨ (files ≠ []
               ∧ (∃ rest, inputs w = py "y" :: rest ∨ inputs w = py "Y" :: rest)
               ∧ ∃ more, cs = merge_cmd :: more))) as H.
  { unfold apply_all_changes. destruct files as [|file rest].
    { apply emits_print. intros w' _. by left. }
    apply emits_bind, emits_print. intros w1 I1.
    apply emits_bind, emits_input.
    - intros _ w2 _. by left.
    - intros line rest' w2 Hin _. rewrite I1 in Hin.
      destruct (pystr_eqb (lower line) (py "y")) eqn:Hy; cbn [negb].
      2: { apply emits_print. intros w3 _. by left. }
      unfold pystr_eqb in Hy. apply bool_decide_eq_true in Hy.
      apply lower_is_y in Hy.
      assert (∃ rest0, inputs w = py "y" :: rest0
                       ∨ inputs w = py "Y" :: rest0) as Hconf.
      { exists rest'. destruct Hy as [-> | ->]; auto. }
      apply emits_bind, emits_print. intros w3 _.
      apply emits_bind, emits_run_cmd. intros w4 _.
      destruct (negb _).
      + apply emits_print. intros w5 _. right. split; [done|].
        split; [done|]. by eexists.
      + apply emits_bind.
        eapply emits_conseq; [apply emits_restore_excluded|].
        intros r w5 cs (-> & _ & ->).
        apply emits_bind, emits_print. intros w6 _.
        eapply emits_conseq; [apply emits_show_status|].
        intros r w7 cs (-> & _ & ->). right. split; [done|].
        split; [done|]. by eexists. }
  destruct H as (evs & T & Hh & HC). by exists evs.
Qed.

Lemma parse_numbers_subset (file_map : gmap pystr pystr) files nums
    selected result :
  (∀ key file, file_map !! key = Some file → file ∈ files) →
  selected ⊆ files →
  parse_numbers file_map nums selected = (result, None) →
  result ⊆ files.
Proof.
  intros Hmap. revert selected.
  induction nums as [|num nums IH]; intros selected Hsel; simpl.
  - by intros [= <-].
  - destruct (file_map !! strip num) as [file|] eqn:E; [|done].
    apply IH. intros f [Hf|Hf]%elem_of_app; [by apply Hsel|].
    apply list_elem_of_singleton in Hf as ->. by eapply Hmap.
Qed.

Lemma file_map_of_values files key file :
  file_map_of 1 files ∅ !! key = Some file → file ∈ files.
Proof.
  intros H. apply file_map_lookup in H as (j & Hj & _).
  by eapply list_elem_of_lookup_2.
Qed.

Lemma select_loop_selects_files e fuel files file_map w :
  (∀ key file, file_map !! key = Some file → file ∈ files) →
  emits e (select_loop fuel files file_map) w
    (λ (r : outcome (option (list pystr))) _ cs,
       cs = [] ∧ ∀ selected, r = Val (Some selected) → selected ⊆ files).
Proof.
  intros Hmap. revert w. induction fuel as [|fuel IH]; intros w.
  { exists []. by repeat split. }
  cbn [select_loop]. apply emits_bind, emits_input.
  - by intros _ w1 _.
  - intros line rest w1 _ _.
    destruct (pystr_eqb _ _).
    { apply emits_ret. by split. }
    destruct (pystr_eqb _ _).
    { apply emits_ret. split; [done|]. by intros ? [= <-]. }
    destruct (parse_numbers _ _ _) as [selected [num|]] eqn:E.
    + apply emits_bind, emits_print. intros w2 _. apply IH.
    + destruct selected as [|f sel]; [apply IH|].
      apply emits_ret. split; [done|]. intros ? [= <-].
      eapply (parse_numbers_subset file_map files _ [] _ Hmap); [|exact E].
      intros ? H. by apply elem_of_nil in H.
Qed.

(** X4. The command lines of apply-selected: whatever the operator types,
    either no command line is issued, or the lines issued are upstream
    checkout lines, each made of the fixed text and the name of a file of
    the change set as it is, followed by the status display.  What the
    shell makes of a name with blanks or operator characters is not part
    of the statement. *)
Theorem interactive_select_command_lines (e : env)
    (files : list pystr) (w : world) :
  ∃ evs,
    trace (interactive_select e files w).2 = evs ++ trace w
    ∧ Forall (harmless e) evs
    ∧ (commands_of evs = []
       ∨ ∃ selected,
           selected ⊆ files
           ∧ commands_of evs
             = map (λ file, py "git checkout upstream/main -- " ++ file)
                   selected
               ++ [py "git status"]).
Proof.
  change (∃ evs,
            trace (interactive_select e files w).2 = evs ++ trace w
            ∧ Forall (harmless e) evs
            ∧ (commands_of evs = []
               ∨ ∃ selected,
                   selected ⊆ files
                   ∧ commands_of evs
                     = map checkout_upstream selected ++ [status_cmd])).
  assert (emits e (interactive_select e files) w (λ (r : outcome unit) _ cs,
            cs = []
            ∨ ∃ selected,
                selected ⊆ files
                ∧ cs = map checkout_upstream selected ++ [status_cmd])) as H.
  { unfold interactive_select. destruct files as [|file rest].
    { apply emits_print. intros w' _. by left. }
    apply emits_bind, emits_print. intros w1 _.
    apply emits_bind.
    eapply emits_conseq; [apply emits_list_files|].
    intros r w2 cs (-> & _ & ->).
    apply emits_bind. exists []. split; [done|]. split; [done|].
    cbn [fst snd]. apply emits_bind.
    eapply emits_conseq.
    { apply select_loop_selects_files. apply file_map_of_values. }
    intros r w3 cs [-> Hsel]. destruct r as [[selected|]|x|]; try by left.
    - specialize (Hsel selected eq_refl).
      apply emits_bind, emits_print. intros w4 _.
      apply emits_bind.
      eapply emits_conseq; [apply emits_checkout_selected|].
      intros r w5 cs (-> & _ & ->).
      apply emits_bind, emits_print. intros w6 _.
      eapply emits_conseq; [apply emits_show_status|].
      intros r w7 cs (-> & _ & ->). right. by exists selected.
    - apply emits_ret. by left. }
  destruct H as (evs & T & Hh & HC). by exists evs.
Qed.

Lemma emits_open_in_editor e conflict_files w :
  emits e (open_in_editor e conflict_files) w
    (λ (r : outcome unit) _ cs, cs = []).
Proof.
  revert w. induction conflict_files as [|file rest IH]; intros w; simpl.
  - by apply emits_ret.
  - apply emits_bind. destruct (path_exists e file) eqn:Hp.
    + destruct (editor_ok e).
      * apply emits_editor; [done|]. intros w1 _. apply IH.
      * by apply emits_raise.
    + apply emits_ret. apply IH.
Qed.

Lemma emits_print_exact e m w
    (C : outcome unit → world → list pystr → Prop) :
  C (Val tt) (World (inputs w) (gitattributes w) (EvPrint m :: trace w)) [] →
  emits e (print m) w C.
Proof.
  intros H. exists [EvPrint m]. split; [done|].
  split; [by apply Forall_singleton|done].
Qed.

(** X5. Checking for conflicts changes nothing: however the run ends, it
    runs the unmerged-path query and, only when that query prints nothing,
    the status command; it writes nothing, and the editor is started for
    existing files only. *)
Theorem check_conflicts_is_read_only (e : env) (w : world) :
  let asked :=
    World (inputs w) (gitattributes w)
          (EvPrint MsgCheckingConflicts :: trace w) in
  ∃ evs,
    trace (check_conflicts e w).2 = evs ++ trace w
    ∧ Forall (harmless e) evs
    ∧ commands_of evs
      = (if pystr_eqb (answer e asked unmerged_cmd).1 []
         then [unmerged_cmd; status_cmd] else [unmerged_cmd]).
Proof.
  intros asked.
  assert (emits e (check_conflicts e) w (λ (r : outcome unit) _ cs,
            cs = if pystr_eqb (answer e asked unmerged_cmd).1 []
                 then [unmerged_cmd; status_cmd] else [unmerged_cmd])) as H.
  { unfold check_conflicts.
    apply emits_bind, emits_print_exact. fold asked.
    apply emits_bind, emits_run_cmd. intros w2 _. cbn [fst].
    destruct (pystr_eqb (answer e asked unmerged_cmd).1 []); cbn [negb].
    - apply emits_bind, emits_print. intros w3 _.
      apply emits_bind, emits_run_cmd. intros w4 _.
      destruct (contains _ _); [by apply emits_print | by apply emits_ret].
    - apply emits_bind, emits_print. intros w3 _.
      apply emits_bind, emits_print. intros w4 _.
      apply emits_bind, emits_input; [done|].
      intros line rest w5 _ _. destruct (pystr_eqb _ _).
      + eapply emits_conseq; [apply emits_open_in_editor|].
        by intros r w6 cs ->.
      + by apply emits_ret. }
  destruct H as (evs & T & Hh & HC). by exists evs.
Qed.

(** X6. When the editor cannot be started, offering to open the conflict
    files ends in an exception: with conflicts reported, the answer y and a
    first conflict file that exists, [check_conflicts] raises [OSError]
    once it has read the answer; nothing in it catches the exception. *)
Theorem editor_failure_raises (e : env) (w : world) (line : pystr)
    (rest : list pystr) (file : pystr) (others : list pystr) :
  let asked :=
    World (inputs w) (gitattributes w)
          (EvPrint MsgCheckingConflicts :: trace w) in
  all_files (answer e asked unmerged_cmd).1 = file :: others →
  inputs w = line :: rest →
  lower line = py "y" →
  path_exists e file = true →
  editor_ok e = false →
  (check_conflicts e w).1 = Raise OSError
  ∧ inputs (check_conflicts e w).2 = rest.
Proof.
  intros asked Hfiles Hin Hy Hp He.
  assert ((answer e asked unmerged_cmd).1 ≠ []) as Hout.
  { intros E. by rewrite E in Hfiles. }
  assert (∃ w', check_conflicts e w = (Raise OSError, w') ∧ inputs w' = rest)
    as (w' & -> & Hw'); [|done].
  unfold check_conflicts. unfold bind at 1. unfold print at 1, emit.
  cbn [fst snd]. fold asked. unfold bind at 1.
  destruct (run_cmd_eq e unmerged_cmd true asked) as (evs & -> & _).
  cbn [fst snd]. rewrite (pystr_eqb_ne _ _ Hout). cbn [negb].
  rewrite Hfiles. subst asked.
  unfold bind, print, emit, input. cbn [inputs gitattributes trace fst snd].
  rewrite Hin. cbn beta iota. rewrite Hy.
  rewrite (pystr_eqb_eq (py "y") (py "y") eq_refl).
  cbn [open_in_editor]. unfold bind. rewrite Hp, He.
  unfold raise. by eexists.
Qed.

Lemma editor_failure_raises_witness :
  let e := Env (λ _ cmd, if pystr_eqb cmd unmerged_cmd
                         then Some (py "src/a.txt", 0%Z) else Some ([], 0%Z))
               true (λ _, true) false true true in
  (check_conflicts e (World [py "Y"; py "0"] None [])).1 = Raise OSError
  ∧ inputs (check_conflicts e (World [py "Y"; py "0"] None [])).2 = [py "0"].
Proof.
  apply (editor_failure_raises _ (World [py "Y"; py "0"] None []) (py "Y")
           [py "0"] (py "src/a.txt") []); reflexivity.
Defined.

(** ** Running a command, fetching, setting up *)

Lemma fetch_upstream_issues (e : env) (w : world) :
  let fetching :=
    World (inputs w) (gitattributes w) (EvPrint MsgFetching :: trace w) in
  let ok := ((answer e fetching fetch_cmd).2 =? 0)%Z in
  issues (fetch_upstream e) w ok
    (if ok then [fetch_cmd; py "git log -1 --oneline upstream/main"]
     else [fetch_cmd]).
Proof.
  intros fetching ok. unfold fetch_upstream, issues, runs.
  unfold bind at 1. unfold print at 1, emit. cbn [fst snd]. fold fetching.
  destruct (issues_run_cmd e fetch_cmd true fetching) as (w1 & E1 & I1 & C1).
  unfold bind at 1. rewrite E1. cbn [fst snd]. fold ok.
  change (commands_of (trace fetching)) with (commands_of (trace w)) in C1.
  change (inputs fetching) with (inputs w) in I1.
  destruct ok.
  - destruct (issues_run_cmd e (py "git log -1 --oneline upstream/main")
                true w1) as (w2 & E2 & I2 & C2).
    unfold bind at 1. rewrite E2. cbn [fst snd].
    assert (∃ w3, (_ <- (if negb (pystr_eqb (answer e w1
                      (py "git log -1 --oneline upstream/main")).1 [])
                   then _ <- print MsgFetchDone ;;
                        print (MsgLatestCommit (take 60 (answer e w1
                          (py "git log -1 --oneline upstream/main")).1))
                   else print MsgFetchDone) ;; ret true)%prog w2
                  = (Val true, w3)
                  ∧ inputs w3 = inputs w2
                  ∧ commands_of (trace w3) = commands_of (trace w2))
      as (w3 & -> & I3 & C3).
    { destruct (negb _); eexists; (split; [reflexivity|]); by split. }
    exists w3. split; [done|]. split; [congruence|].
    rewrite C3, C2, C1. by rewrite <- app_assoc.
  - eexists. split; [reflexivity|]. split; [done|]. by rewrite <- C1.
Qed.


(** X8. [fetch_upstream] answers whether the fetch returned exit code 0,
    and only then asks for the latest upstream commit: it runs the fetch
    and, after a success, the log command, and nothing else. *)
Theorem fetch_upstream_result (e : env) (w : world) :
  let fetching :=
    World (inputs w) (gitattributes w) (EvPrint MsgFetching :: trace w) in
  let ok := ((answer e fetching fetch_cmd).2 =? 0)%Z in
  issues (fetch_upstream e) w ok
    (if ok then [fetch_cmd; py "git log -1 --oneline upstream/main"]
     else [fetch_cmd]).
Proof. apply fetch_upstream_issues. Qed.

(** X9. The merge driver is registered unless writing .gitattributes
    fails: the setup always returns normally and reads no input; it runs
    the one config command when the file was already there or has just
    been written, and no command at all when the write raised. *)
Theorem setup_registers_driver_unless_write_fails (e : env) (w : world) :
  issues (_setup_merge_protection e) w tt
    (match gitattributes w with
     | Some _ => [config_cmd]
     | None => if write_ok e then [config_cmd] else []
     end).
Proof.
  unfold issues, runs. destruct (gitattributes w) as [c|] eqn:E.
  - unfold _setup_merge_protection, try_except, bind, attributes_exist.
    rewrite E. rewrite bool_decide_eq_true_2 by eauto. cbn [negb ret].
    destruct (issues_run_cmd e config_cmd true w) as (w1 & -> & I1 & C1).
    by exists w1.
  - destruct (write_ok e) eqn:Hw.
    + unfold _setup_merge_protection, try_except, bind, attributes_exist.
      rewrite E. rewrite bool_decide_eq_false_2 by (by intros [? ?]).
      cbn [negb]. unfold write_text. rewrite Hw. unfold print, emit.
      cbn [inputs gitattributes trace fst snd].
      match goal with |- context [run_cmd e config_cmd true ?w0] =>
        destruct (issues_run_cmd e config_cmd true w0) as (w1 & -> & I1 & C1)
      end.
      by exists w1.
    + rewrite (setup_absent_failed e w E Hw). eexists. split; [done|].
      split; [done|]. simpl. by rewrite app_nil_r.
Qed.

(** ** The main loop in particular situations *)

Lemma ensure_remote_configured e w :
  contains (py "upstream") (answer e w (py "git remote -v")).1 = true →
  issues (ensure_remote e) w true [py "git remote -v"].
Proof.
  intros H. unfold ensure_remote, issues, runs.
  destruct (issues_run_cmd e (py "git remote -v") true w)
    as (w1 & E1 & I1 & C1).
  unfold bind at 1. rewrite E1. cbn [fst snd]. rewrite H. cbn [negb].
  by exists w1.
Qed.

(** X10. When the fetch fails the loop ends at once: the remote check and
    the fetch are the only commands run, the menu is never shown, no input
    is read, and [main] still returns exit code 0. *)
Theorem failed_fetch_ends_the_loop (e : env) (w : world) :
  (∀ w', contains (py "upstream") (answer e w' (py "git remote -v")).1 = true) →
  (∀ w', (answer e w' fetch_cmd).2 ≠ 0%Z) →
  runs (main_loop e) w tt (inputs w) [py "git remote -v"; fetch_cmd]
  ∧ (in_repo e = true → git_ok e = true → (main e w).1 = Val 0%Z).
Proof.
  intros Hremote Hfetch.
  assert (∀ w0, issues (main_iteration e) w0 Break
                  [py "git remote -v"; fetch_cmd]) as Hiter.
  { intros w0. unfold main_iteration.
    eapply (issues_bind _ _ _ _ _ []); [apply issues_print|]. intros w1 _.
    eapply (issues_bind _ _ _ _ _ [_]);
      [apply ensure_remote_configured, Hremote|].
    intros w2 _. cbn [negb].
    eapply (issues_bind _ _ _ _ _ [_] []).
    { pose proof (fetch_upstream_issues e w2) as H. cbv zeta in H.
      rewrite (proj2 (Z.eqb_neq _ _) (Hfetch _)) in H. exact H. }
    intros w3 _. cbn [negb].
    eapply (issues_bind _ _ _ _ _ [] []); [apply issues_print|]. intros w4 _.
    apply issues_ret. }
  assert (∀ w0, runs (main_loop e) w0 tt (inputs w0)
                  [py "git remote -v"; fetch_cmd]) as Hloop.
  { intros w0. unfold main_loop, runs. rewrite main_loop_fuel_unfold.
    destruct (Hiter w0) as (w1 & -> & I1 & C1). by exists w1. }
  split; [apply Hloop|].
  intros Hrepo Hgit. unfold main. rewrite Hrepo, Hgit. cbn [negb].
  unfold try_except, bind. destruct (init_returns e w) as (w1 & ->).
  destruct (Hloop w1) as (w2 & -> & _). done.
Qed.

Lemma failed_fetch_ends_the_loop_witness :
  let e := Env (λ _ cmd, if pystr_eqb cmd fetch_cmd
                         then Some ([], 128%Z)
                         else Some (py "upstream  url (fetch)", 0%Z))
               true (λ _, true) true true true in
  runs (main_loop e) (World [py "2"] None []) tt [py "2"]
       [py "git remote -v"; fetch_cmd]
  ∧ (main e (World [py "2"] None [])).1 = Val 0%Z.
Proof.
  destruct (failed_fetch_ends_the_loop
              (Env (λ _ cmd, if pystr_eqb cmd fetch_cmd
                             then Some ([], 128%Z)
                             else Some (py "upstream  url (fetch)", 0%Z))
                   true (λ _, true) true true true)
              (World [py "2"] None [])) as [H1 H2].
  - intros w'. reflexivity.
  - intros w'. discriminate.
  - split; [exact H1 | by apply H2].
Defined.

Lemma ensure_remote_unconfigured e w :
  contains (py "upstream") (answer e w (py "git remote -v")).1 = false →
  ∃ w1,
    inputs w1 = inputs w
    ∧ commands_of (trace w1) = commands_of (trace w) ++ [py "git remote -v"]
    ∧ ensure_remote e w =
      (answer <- input PromptAddRemote ;;
       let setup := lower answer in
       if pystr_eqb setup (py "y") || pystr_eqb setup [] then
         _ <- run_cmd e remote_add_cmd true ;;
         _ <- print MsgRemoteAdded ;;
         ret true
       else
         _ <- print MsgManualRemote ;;
         ret false)%prog w1.
Proof.
  intros H. unfold ensure_remote.
  destruct (issues_run_cmd e (py "git remote -v") true w)
    as (w1 & E1 & I1 & C1).
  unfold bind at 1. rewrite E1. cbn [fst snd]. rewrite H. cbn [negb].
  unfold bind at 1. unfold print at 1, emit. cbn [fst snd].
  eexists. split; [|split; [|reflexivity]]; done.
Qed.

Lemma declined_iteration e w :
  (∀ w', contains (py "upstream") (answer e w' (py "git remote -v")).1 = false) →
  ∃ w',
    commands_of (trace w') = commands_of (trace w) ++ [py "git remote -v"]
    ∧ match inputs w with
      | [] => main_iteration e w = (Raise EOFError, w')
      | line :: rest =>
          lower line ≠ py "y" → lower line ≠ [] →
          main_iteration e w = (Val Continue, w') ∧ inputs w' = rest
      end.
Proof.
  intros Hno.
  destruct (ensure_remote_unconfigured e
              (World (inputs w) (gitattributes w) (EvPrint MsgTitle :: trace w))
              (Hno _)) as (w1 & I1 & C1 & E1).
  cbn [inputs trace] in I1, C1.
  change (commands_of (EvPrint MsgTitle :: trace w))
    with (commands_of (trace w)) in C1.
  destruct (inputs w) as [|line rest] eqn:Hin.
  - unfold main_iteration.
    unfold bind at 1. unfold print at 1, emit. cbn [fst snd].
    unfold bind at 1. rewrite Hin, E1. unfold bind at 1. unfold input.
    rewrite I1. eexists. split; [|reflexivity]. exact C1.
  - eexists. split; [|intros Hy He; split].
    2: { unfold main_iteration.
         unfold bind at 1. unfold print at 1, emit. cbn [fst snd].
         unfold bind at 1. rewrite Hin, E1. unfold bind at 1. unfold input.
         rewrite I1. cbn beta iota zeta.
         rewrite (pystr_eqb_ne _ _ Hy), (pystr_eqb_ne _ _ He). reflexivity. }
    + exact C1.
    + reflexivity.
Qed.

(** X11. While no upstream remote is configured and the operator declines
    to add it, the tool only asks again: it runs the remote check once per
    round and never fetches, diffs, merges or checks out; when the input
    ends it stops with [EOFError]. *)
Theorem declined_remote_never_fetches (e : env) (w : world) :
  (∀ w', contains (py "upstream") (answer e w' (py "git remote -v")).1 = false) →
  Forall (λ line, lower line ≠ py "y" ∧ lower line ≠ []) (inputs w) →
  ∃ w',
    main_loop e w = (Raise EOFError, w')
    ∧ commands_of (trace w')
      = commands_of (trace w)
        ++ replicate (S (length (inputs w))) (py "git remote -v").
Proof.
  intros Hno.
  assert (∀ fuel w0, length (inputs w0) < fuel →
            Forall (λ line, lower line ≠ py "y" ∧ lower line ≠ []) (inputs w0) →
            ∃ w', main_loop_fuel e fuel w0 = (Raise EOFError, w')
                  ∧ commands_of (trace w')
                    = commands_of (trace w0)
                      ++ replicate (S (length (inputs w0)))
                           (py "git remote -v")) as H.
  { clear w. intros fuel. induction fuel as [|fuel IH]; intros w Hlt Hall.
    { lia. }
    rewrite main_loop_fuel_unfold.
    destruct (declined_iteration e w Hno) as (w1 & C1 & H1).
    destruct (inputs w) as [|line rest] eqn:Hin.
    - rewrite H1. exists w1. by split.
    - apply Forall_cons in Hall as [[Hy He] Hall].
      destruct (H1 Hy He) as [-> I1].
      destruct (IH w1) as (w2 & -> & C2).
      { rewrite I1. simpl in Hlt. lia. }
      { by rewrite I1. }
      exists w2. split; [done|]. rewrite C2, C1, I1. simpl.
      by rewrite <- app_assoc. }
  intros Hall. unfold main_loop. apply H; [lia|done].
Qed.

Lemma declined_remote_never_fetches_witness :
  ∃ w',
    main_loop (Env (λ _ _, Some ([], 0%Z)) true (λ _, true) true true true)
              (World [py "n"; py "no"] None [])
    = (Raise EOFError, w')
    ∧ commands_of (trace w') = replicate 3 (py "git remote -v").
Proof.
  apply (declined_remote_never_fetches
           (Env (λ _ _, Some ([], 0%Z)) true (λ _, true) true true true)
           (World [py "n"; py "no"] None [])).
  - intros w'. reflexivity.
  - repeat (apply List.Forall_cons; [split; discriminate|]).
    apply List.Forall_nil.
Defined.

(** ** Exit codes *)








(** ** What is shown of a diff *)

Lemma join_split sep s : join [sep] (split sep s) = s.
Proof.
  induction s as [|c s IH]; [done|]. simpl.
  destruct (split_cons_inv sep s) as (piece & pieces & E).
  rewrite E in *. destruct (N.eqb_spec c sep) as [->|_].
  - change (join [sep] ([] :: piece :: pieces))
      with (sep :: join [sep] (piece :: pieces)).
    by rewrite IH.
  - rewrite <- IH. by destruct pieces.
Qed.

Lemma startswith_nil s : startswith s [] = true.
Proof. by destruct s. Qed.

Lemma colorize_wraps c line :
  colorize_diff_line c line = line
  ∨ ∃ colour,
      colour ∈ [DIFF_FILE c; DIFF_META c; DIFF_DEL c; DIFF_ADD c; DIFF_HUNK c]
      ∧ colorize_diff_line c line = colour ++ line ++ RESET c.
Proof.
  unfold colorize_diff_line.
  repeat match goal with
         | |- context [if ?b then _ else _] => destruct b
         end;
    first [ by left
          | right; eexists; split; [|reflexivity];
            rewrite !elem_of_cons; tauto ].
Qed.

(** X13. Nothing of a diff is lost or altered on display: what
    [preview_changes] prints is the diff itself, or its lines one by one,
    each either as it is or between one of the five diff colours and the
    reset sequence; joining the lines gives the diff back. *)
Theorem shown_diff_keeps_the_text (c : Colors) (diff_output : pystr) :
  ∃ lines,
    join [LF] lines = diff_output
    ∧ Forall2
        (λ shown line,
           shown = line
           ∨ ∃ colour,
               colour ∈ [DIFF_FILE c; DIFF_META c; DIFF_DEL c; DIFF_ADD c;
                         DIFF_HUNK c]
               ∧ shown = colour ++ line ++ RESET c)
        (shown_diff c diff_output) lines.
Proof.
  unfold shown_diff. destruct (contains _ _).
  - exists [diff_output]. split; [done|]. constructor; [by left|constructor].
  - exists (split LF diff_output). split; [apply join_split|].
    induction (split LF diff_output) as [|line lines IH]; [constructor|].
    constructor; [apply colorize_wraps | exact IH].
Qed.

(** X14. The first character decides the colour of a changed line: every
    line that begins with + is shown in the addition colour and every line
    that begins with - in the deletion colour.  The file header lines
    (+++ and ---) are no exception, so the two branches written for them
    change nothing. *)
Theorem sign_decides_colour (c : Colors) (text : pystr) :
  colorize_diff_line c (43%N :: text)
  = DIFF_ADD c ++ (43%N :: text) ++ RESET c
  ∧ colorize_diff_line c (45%N :: text)
    = DIFF_DEL c ++ (45%N :: text) ++ RESET c.
Proof.
  split; unfold colorize_diff_line.
  - change (startswith (43%N :: text) (py "diff --git")) with false.
    change (startswith (43%N :: text) (py "index")) with false.
    change (startswith (43%N :: text) (py "---")) with false.
    change (startswith (43%N :: text) (py "@@")) with false.
    change (startswith (43%N :: text) (py "+")) with (startswith text []).
    rewrite startswith_nil. by destruct (startswith _ _).
  - change (startswith (45%N :: text) (py "diff --git")) with false.
    change (startswith (45%N :: text) (py "index")) with false.
    change (startswith (45%N :: text) (py "+++")) with false.
    change (startswith (45%N :: text) (py "@@")) with false.
    change (startswith (45%N :: text) (py "+")) with false.
    change (startswith (45%N :: text) (py "-")) with (startswith text []).
    rewrite startswith_nil. by destruct (startswith _ _).
Qed.

(** X15. The change statistics are counted line by line: the counts of a
    diff are the sums of the counts of its parts, wherever it is cut at a
    line feed, and the empty output counts nothing. *)
Theorem statistics_add_up (d1 d2 : pystr) :
  added (d1 ++ LF :: d2) = added d1 + added d2
  ∧ removed (d1 ++ LF :: d2) = removed d1 + removed d2
  ∧ added [] = 0 ∧ removed [] = 0.
Proof.
  unfold added, removed. rewrite split_app, !List.filter_app, !length_app.
  done.
Qed.

Lemma startswith_app pre s : startswith (pre ++ s) pre = true.
Proof.
  induction pre as [|c pre IH]; simpl; [apply startswith_nil|].
  by rewrite N.eqb_refl.
Qed.

(** X16. A changed line whose own text begins with ++ or with -- is not
    counted: an added line "++i;" arrives as "+++i;" and a removed rule
    "--" as "---", which the statistics take for file headers, although
    they are shown in the colours of an addition and of a deletion. *)
Theorem double_sign_lines_are_not_counted (text : pystr) :
  LF ∉ text →
  added (py "+" ++ py "++" ++ text) = 0
  ∧ removed (py "-" ++ py "--" ++ text) = 0.
Proof.
  intros H. unfold added, removed.
  rewrite !split_single.
  - change (py "+" ++ py "++" ++ text) with (py "+++" ++ text).
    change (py "-" ++ py "--" ++ text) with (py "---" ++ text).
    cbn [List.filter]. rewrite !startswith_app, !andb_false_r. done.
  - intros Hin. apply H.
    by repeat (apply elem_of_cons in Hin as [?|Hin]; [done|]).
  - intros Hin. apply H.
    by repeat (apply elem_of_cons in Hin as [?|Hin]; [done|]).
Qed.

Lemma double_sign_lines_are_not_counted_witness :
  added (py "+" ++ py "++" ++ py "i;") = 0
  ∧ removed (py "-" ++ py "--" ++ py "i;") = 0.
Proof.
  apply (double_sign_lines_are_not_counted (py "i;")).
  intros Hin. repeat (apply elem_of_cons in Hin as [?|Hin]; [done|]).
  by apply not_elem_of_nil in Hin.
Defined.

(** ** Groups and counts *)

Lemma filter_disjoint_app {A} (P Q : A → Prop)
    `{∀ x, Decision (P x)} `{∀ x, Decision (Q x)} (l : list A) :
  (∀ x, P x → Q x → False) →
  filter P l ++ filter Q l ≡ₚ filter (λ x, P x ∨ Q x) l.
Proof.
  intros Hd. induction l as [|x l IH]; [done|].
  rewrite !filter_cons.
  destruct (decide (P x)) as [p|np], (decide (Q x)) as [q|nq];
    destruct (decide (P x ∨ Q x)) as [o|no]; try tauto.
  - by destruct (Hd x).
  - simpl. by rewrite IH.
  - rewrite <- Permutation_middle. by rewrite IH.
Qed.

(** Sorting the files by a key, one bucket per key, loses no file and
    doubles none. *)
Lemma concat_members {K} `{EqDecision K} (key : pystr → K)
    (keys : list K) (files : list pystr) :
  NoDup keys →
  (∀ f, f ∈ files → key f ∈ keys) →
  concat (map (λ k, filter (λ f, key f = k) files) keys) ≡ₚ files.
Proof.
  intros Hnd Hall.
  assert (concat (map (λ k, filter (λ f, key f = k) files) keys)
          ≡ₚ filter (λ f, key f ∈ keys) files) as ->.
  { clear Hall. induction Hnd as [|k keys Hk Hnd IH]; simpl.
    - induction files as [|f files IHf]; [done|].
      rewrite filter_cons. destruct (decide _) as [Hin|_]; [|done].
      by apply not_elem_of_nil in Hin.
    - rewrite IH, filter_disjoint_app.
      + erewrite list_filter_iff; [done|].
        intros f. rewrite elem_of_cons. naive_solver.
      + intros f <- Hin. done. }
  induction files as [|f files IH]; [done|].
  rewrite filter_cons. destruct (decide _) as [_|Hn].
  - f_equiv. apply IH. intros g Hg. apply Hall. by right.
  - destruct Hn. apply Hall. by left.
Qed.


Lemma concat_map_Permutation {K} (F : K → list pystr) (k1 k2 : list K) :
  k1 ≡ₚ k2 → concat (map F k1) ≡ₚ concat (map F k2).
Proof.
  induction 1 as [|k l1 l2 _ IH|k k' l|l1 l2 l3 _ IH1 _ IH2]; simpl.
  - done.
  - by rewrite IH.
  - rewrite !app_assoc. f_equiv. apply Permutation_app_comm.
  - by rewrite IH1.
Qed.







Lemma count_extension_key suffix extensions file :
  count_extension suffix extensions file
  = <[extension_key suffix file :=
        default 0 (extensions !! extension_key suffix file) + 1]> extensions.
Proof.
  unfold count_extension, extension_key.
  by destruct (pystr_eqb (suffix file) []).
Qed.

Lemma extensions_of_lookup suffix files key :
  extensions_of suffix files !! key
  = (if decide (filter (λ f, extension_key suffix f = key) files = [])
     then None
     else Some (length (filter (λ f, extension_key suffix f = key) files))).
Proof.
  unfold extensions_of.
  induction files as [|file files IH] using rev_ind; [done|].
  rewrite foldl_snoc, filter_app, count_extension_key.
  set (m := filter (λ f, extension_key suffix f = key) files) in *.
  destruct (decide (extension_key suffix file = key)) as [Heq|Hne].
  - rewrite Heq, lookup_insert_eq, IH.
    rewrite filter_cons_True by done. rewrite filter_nil.
    destruct (decide (m ++ [file] = [])) as [E|_];
      [by apply app_eq_nil in E as [_ ?]|].
    rewrite length_app. simpl.
    destruct (decide (m = [])) as [->|_]; done.
  - rewrite lookup_insert_ne by done. rewrite IH.
    rewrite filter_cons_False by done. rewrite filter_nil, app_nil_r. done.
Qed.

Lemma sum_list_lengths {K} (F : K → list pystr) (keys : list K) :
  sum_list (map (λ k, length (F k)) keys) = length (concat (map F keys)).
Proof.
  induction keys as [|k keys IH]; [done|]. simpl.
  by rewrite length_app, IH.
Qed.

(** X18. The distribution by file type in the summary accounts for every
    file once: the counts add up to the number of files, each row counts
    the files of its own type (the files without extension under one key),
    and no type has two rows or a count of zero.  This holds whatever the
    library takes for the suffix of a path. *)
Theorem summary_counts_every_file (suffix : pystr → pystr)
    (files : list pystr) :
  sum_list (summary_rows suffix files).*2 = length files
  ∧ NoDup (summary_rows suffix files).*1
  ∧ Forall (λ row,
              0 < row.2
              ∧ row.2 = length (filter (λ f, extension_key suffix f = row.1)
                                       files))
           (summary_rows suffix files).
Proof.
  unfold summary_rows.
  set (items := map_to_list (extensions_of suffix files)).
  assert (∀ row, row ∈ items →
            filter (λ f, extension_key suffix f = row.1) files ≠ []
            ∧ row.2 = length (filter (λ f, extension_key suffix f = row.1)
                                     files)) as Hrow.
  { intros [key n] Hin. apply elem_of_map_to_list in Hin. simpl.
    rewrite extensions_of_lookup in Hin.
    destruct (decide _) as [|Hne]; [done|]. by injection Hin as <-. }
  assert (NoDup items.*1) as Hnd by apply NoDup_fst_map_to_list.
  split; [|split].
  - rewrite merge_sort_Permutation.
    assert (items.*2
            = map (λ k, length (filter (λ f, extension_key suffix f = k)
                                       files)) items.*1) as ->.
    { rewrite <- list_fmap_compose. apply list_fmap_ext.
      intros i row Hi. apply list_elem_of_lookup_2, Hrow in Hi as [_ ->].
      done. }
    rewrite sum_list_lengths. apply Permutation_length.
    apply concat_members; [done|].
    intros f Hf. apply list_elem_of_fmap.
    exists (extension_key suffix f,
            length (filter (λ g, extension_key suffix g = extension_key suffix f)
                           files)).
    split; [done|]. apply elem_of_map_to_list.
    rewrite extensions_of_lookup.
    destruct (decide _) as [E|_]; [|done].
    by destruct (filter_nil_not_elem_of _ _ f E).
  - by rewrite merge_sort_Permutation.
  - apply Forall_forall. intros row Hin.
    rewrite merge_sort_Permutation in Hin. apply Hrow in Hin as [Hne ->].
    split; [|done]. destruct (filter _ files); [done|simpl; lia].
Qed.

(** ** A complete preview *)

Lemma runs_input p w line rest :
  inputs w = line :: rest → runs (input p) w line rest [].
Proof.
  intros Hin. unfold runs, input. rewrite Hin. eexists.
  split; [done|]. split; [done|]. simpl. by rewrite app_nil_r.
Qed.

Lemma preview_loop_runs e idx total files w conts rest :
  files ≠ [] → idx + length files = S total →
  inputs w = conts ++ rest → S (length conts) = length files →
  Forall (λ cont, lower cont ≠ py "q") conts →
  runs (preview_loop e idx total files) w tt rest (map diff_file_cmd files).
Proof.
  revert idx w conts.
  induction files as [|file files IH]; intros idx w conts Hne Hidx Hin Hlen Hq;
    [done|].
  cbn [preview_loop map].
  change (diff_file_cmd file :: map diff_file_cmd files)
    with ([] ++ [diff_file_cmd file] ++ [] ++ map diff_file_cmd files).
  eapply runs_bind; [apply issues_print|]. intros w1 I1.
  eapply runs_bind; [apply issues_run_cmd|]. intros w2 I2.
  eapply runs_bind; [destruct (negb _); apply issues_print|]. intros w3 I3.
  rewrite I2, I1, Hin in I3.
  destruct files as [|file' files'].
  - simpl in Hidx, Hlen. assert (idx = total) as -> by lia.
    rewrite Nat.ltb_irrefl. destruct conts; [|done].
    cbn [preview_loop map]. exists w3. split; [done|]. split; [done|].
    by rewrite app_nil_r.
  - simpl in Hidx, Hlen. rewrite (proj2 (Nat.ltb_lt _ _)) by lia.
    destruct conts as [|cont conts]; [done|].
    apply Forall_cons in Hq as [Hc Hq].
    change (map diff_file_cmd (file' :: files'))
      with ([] ++ map diff_file_cmd (file' :: files')).
    eapply runs_bind; [by apply runs_input|]. intros w4 I4.
    rewrite (pystr_eqb_ne _ _ Hc).
    apply (IH (S idx) w4 conts); [done | simpl; lia | done | simpl in *; lia | done].
Qed.

(** X19. A preview that is not cut short shows every file: when the
    operator answers y and then never q, the per-file diffs of the whole
    change set are run, in order; one line is read after each file but the
    last, and the rest of the input is left for the menu. *)
Theorem preview_shows_every_file (e : env) (files : list pystr) (w : world)
    (first : pystr) (conts rest : list pystr) :
  files ≠ [] →
  inputs w = first :: conts ++ rest →
  lower first = py "y" →
  S (length conts) = length files →
  Forall (λ cont, lower cont ≠ py "q") conts →
  runs (preview_changes e files) w tt rest (map diff_file_cmd files).
Proof.
  intros Hne Hin Hy Hlen Hq. unfold preview_changes.
  destruct files as [|file files']; [done|].
  change (map diff_file_cmd (file :: files'))
    with ([] ++ [] ++ [] ++ map diff_file_cmd (file :: files')).
  eapply runs_bind; [apply issues_print|]. intros w1 I1.
  eapply runs_bind; [apply issues_print|]. intros w2 I2.
  eapply runs_bind; [apply runs_input; by rewrite I2, I1|]. intros w3 I3.
  rewrite Hy. rewrite pystr_eqb_eq by done. cbn [negb].
  apply (preview_loop_runs e 1 (length (file :: files')) (file :: files')
           w3 conts rest); [done | simpl; lia | done | done | done].
Qed.

Lemma preview_shows_every_file_witness :
  runs (preview_changes (scripted_env [] 0 0 true) [py "a.py"; py "b/c.py"])
       (World [py "Y"; py "n"; py "0"] None []) tt [py "0"]
       [diff_file_cmd (py "a.py"); diff_file_cmd (py "b/c.py")].
Proof.
  apply (preview_shows_every_file (scripted_env [] 0 0 true)
           [py "a.py"; py "b/c.py"] (World [py "Y"; py "n"; py "0"] None [])
           (py "Y") [py "n"] [py "0"]).
  - done.
  - reflexivity.
  - reflexivity.
  - reflexivity.
  - apply List.Forall_cons; [discriminate | apply List.Forall_nil].
Defined.
